(** * Turtle Adventure: a shallow embedding of [turtle_adventure.py]

    The module keeps every game element of the Turtle's adventure game:
    the waypoint, the home, the player (a turtle), three kinds of moving
    enemies, the enemy generator and the game itself.

    Numbers.  Python's [int] is unbounded and is modelled by [Z].  Python's
    [float] coordinates, speeds and time deltas are modelled by the real
    numbers [R]: rounding is idealised away, but the faults of float
    arithmetic that the code can meet are kept ([x / 0.0] raises
    [ZeroDivisionError]).  Where a property turns on the rounding itself,
    the expression is given a second time in binary64, on the primitive
    floats, and the two are compared.

    Effects.  Every method runs in a small state-and-exception monad over
    the [Game] record; a Python exception leaves the state as it was
    mutated up to the raise. *)

From Stdlib Require Import Floats.
From stdpp Require Import base list.
From Stdlib Require Import ZArith Reals Lra Lia String.

Local Open Scope Z_scope.

(** ** Decidable comparisons on floats *)

#[global] Instance Rle_decision (x y : R) : Decision (x <= y)%R := Rle_dec x y.
#[global] Instance Rlt_decision (x y : R) : Decision (x < y)%R := Rlt_dec x y.
#[global] Instance Req_decision : EqDecision R := Req_EM_T.

(** ** Data model *)

(** [Waypoint]: the inherited [x], [y] of [GameElement] and [__active]. *)
Record Waypoint := mkWaypoint {
  wp_x : R;
  wp_y : R;
  is_active : bool
}.

(** [Home]: position and [__size]. *)
Record Home := mkHome {
  home_x : R;
  home_y : R;
  home_size : Z
}.

(** The part of a [RawTurtle] the player uses: its position and its
    orientation, a unit vector. *)
Record Turtle := mkTurtle {
  xcor : R;
  ycor : R;
  orient_x : R;
  orient_y : R
}.

(** [Player]: [x] and [y] are the turtle's [xcor()] and [ycor()]. *)
Record Player := mkPlayer {
  plr_turtle : Turtle;
  plr_speed : R
}.

Definition plr_x (p : Player) : R := xcor (plr_turtle p).
Definition plr_y (p : Player) : R := ycor (plr_turtle p).

Inductive Color := red | green | blue.

(** The enemy classes, with the private state each one adds to [Enemy]. *)
Inductive Strategy :=
| RandomWalkEnemy (tarx tary : R)
| ChasingEnemy
| FencingEnemy (tar_corner : Z) (dir : bool) (radius : Z)
| DemoEnemy.

Record Enemy := mkEnemy {
  en_x : R;
  en_y : R;
  en_size : Z;
  en_color : Color;
  en_speed : R;
  en_strategy : Strategy
}.

#[global] Instance Enemy_inhabited : Inhabited Enemy :=
  populate (mkEnemy 0 0 0 red 0 DemoEnemy).

(** ** Geometry *)

(** [Home.contains(x, y)]. *)
Definition Home_contains (h : Home) (x y : R) : bool :=
  let x1 := (home_x h - IZR (home_size h) / 2)%R in
  let x2 := (home_x h + IZR (home_size h) / 2)%R in
  let y1 := (home_y h - IZR (home_size h) / 2)%R in
  let y2 := (home_y h + IZR (home_size h) / 2)%R in
  bool_decide (x1 <= x)%R && bool_decide (x <= x2)%R
  && (bool_decide (y1 <= y)%R && bool_decide (y <= y2)%R).

(** [Enemy.hits_player()], for the enemy [e] and the player [plr]. *)
Definition Enemy_hits_player (e : Enemy) (plr : Player) : bool :=
  bool_decide ((en_x e - plr_x plr) ^ 2 + (en_y e - plr_y plr) ^ 2
               <= (IZR (en_size e) / 2 + 9) ^ 2)%R.


(** The real number a finite float stands for, [mantissa * 2 ^ exponent]. *)
Definition binary64_value (f : float) : R :=
  match Prim2SF f with
  | S754_finite sign m e =>
    let v := (IZR (Z.pos m) * powerRZ 2 e)%R in
    if sign then (- v)%R else v
  | _ => 0%R
  end.

(** ** The game state *)

(** What a delayed call scheduled with [after] will run. *)
Inductive Callback :=
| cb_create_enemy                 (* [self.create_enemy] of the generator *)
| cb_win_clear (text_id : nat).   (* [canvas.delete(text_id) or new_game()] *)

(** [TurtleAdventureGame].  [enemy_generator_level] is the [__level] of the
    game's [EnemyGenerator]; [running], [timers], [texts] and [next_id] are
    the state of the [Game] frame and of its canvas; [rng] is the state of
    Python's random generator, the stream of its future draws. *)
Record Game := mkGame {
  level : Z;
  screen_width : Z;
  screen_height : Z;
  waypoint : Waypoint;
  player : Player;
  home : Home;
  enemies : list Enemy;
  enemy_generator_level : Z;
  running : bool;
  timers : list (Z * Callback);
  texts : list (nat * string);
  next_id : nat;
  rng : nat -> Z
}.

Definition set_level (v : Z) (g : Game) : Game :=
  mkGame v (screen_width g) (screen_height g) (waypoint g) (player g)
    (home g) (enemies g) (enemy_generator_level g) (running g) (timers g)
    (texts g) (next_id g) (rng g).
Definition set_waypoint (v : Waypoint) (g : Game) : Game :=
  mkGame (level g) (screen_width g) (screen_height g) v (player g)
    (home g) (enemies g) (enemy_generator_level g) (running g) (timers g)
    (texts g) (next_id g) (rng g).
Definition set_player (v : Player) (g : Game) : Game :=
  mkGame (level g) (screen_width g) (screen_height g) (waypoint g) v
    (home g) (enemies g) (enemy_generator_level g) (running g) (timers g)
    (texts g) (next_id g) (rng g).
Definition set_enemies (v : list Enemy) (g : Game) : Game :=
  mkGame (level g) (screen_width g) (screen_height g) (waypoint g) (player g)
    (home g) v (enemy_generator_level g) (running g) (timers g)
    (texts g) (next_id g) (rng g).
Definition set_enemy_generator_level (v : Z) (g : Game) : Game :=
  mkGame (level g) (screen_width g) (screen_height g) (waypoint g) (player g)
    (home g) (enemies g) v (running g) (timers g)
    (texts g) (next_id g) (rng g).
Definition set_running (v : bool) (g : Game) : Game :=
  mkGame (level g) (screen_width g) (screen_height g) (waypoint g) (player g)
    (home g) (enemies g) (enemy_generator_level g) v (timers g)
    (texts g) (next_id g) (rng g).
Definition set_timers (v : list (Z * Callback)) (g : Game) : Game :=
  mkGame (level g) (screen_width g) (screen_height g) (waypoint g) (player g)
    (home g) (enemies g) (enemy_generator_level g) (running g) v
    (texts g) (next_id g) (rng g).
Definition set_canvas (v : list (nat * string)) (n : nat) (g : Game) : Game :=
  mkGame (level g) (screen_width g) (screen_height g) (waypoint g) (player g)
    (home g) (enemies g) (enemy_generator_level g) (running g) (timers g)
    v n (rng g).
Definition set_rng (v : nat -> Z) (g : Game) : Game :=
  mkGame (level g) (screen_width g) (screen_height g) (waypoint g) (player g)
    (home g) (enemies g) (enemy_generator_level g) (running g) (timers g)
    (texts g) (next_id g) v.

Definition set_position (x y : R) (e : Enemy) : Enemy :=
  mkEnemy x y (en_size e) (en_color e) (en_speed e) (en_strategy e).
Definition set_strategy (s : Strategy) (e : Enemy) : Enemy :=
  mkEnemy (en_x e) (en_y e) (en_size e) (en_color e) (en_speed e) s.

(** ** Methods as state transformers that may raise *)

Inductive exn :=
| ZeroDivisionError
| RecursionError
| ValueError
| IndexError
| AttributeError.

Inductive result (A : Type) :=
| Ok (a : A)
| Raise (e : exn).
Arguments Ok {A} a.
Arguments Raise {A} e.

Definition M (A : Type) : Type := Game -> result A * Game.

Definition ret {A} (a : A) : M A := fun g => (Ok a, g).
Definition raise {A} (e : exn) : M A := fun g => (Raise e, g).
Definition bind {A B} (m : M A) (f : A -> M B) : M B :=
  fun g => match m g with
           | (Ok a, g') => f a g'
           | (Raise e, g') => (Raise e, g')
           end.
Definition gets {A} (f : Game -> A) : M A := fun g => (Ok (f g), g).
Definition modify (f : Game -> Game) : M unit := fun g => (Ok tt, f g).

Declare Scope py_scope.
Delimit Scope py_scope with py.
Bind Scope py_scope with M.
Notation "'let*' x := c1 'in' c2" := (bind c1 (fun x => c2))
  (at level 10, x name, c1 at level 100, c2 at level 200) : py_scope.
Notation "c1 ;; c2" := (bind c1 (fun _ => c2))
  (at level 100, c2 at level 200, right associativity) : py_scope.
Local Open Scope py_scope.

(** The state a call leaves behind, whether it returned or raised. *)
Definition exec {A} (m : M A) (g : Game) : Game := snd (m g).
(** Whether the call raised. *)
Definition raises {A} (m : M A) (g : Game) : option exn :=
  match fst (m g) with Ok _ => None | Raise e => Some e end.

(** Python's [for i in range(n)], counting up from [i]. *)
Fixpoint for_range (i n : nat) (body : nat -> M unit) : M unit :=
  match n with
  | O => ret tt
  | S n' => body i ;; for_range (S i) n' body
  end.

(** *** Arithmetic and the [random] module *)

(** Float division [a / b]. *)
Definition fdiv (a b : R) : M R :=
  if decide (b = 0%R) then raise ZeroDivisionError else ret (a / b)%R.

(** Indexing a tuple by an [int]; negative indices count from the end. *)
Definition tuple_index {A} (t : list A) (i : Z) : M A :=
  let n := Z.of_nat (List.length t) in
  let j := if decide (i < 0) then i + n else i in
  if decide (0 <= j < n) then
    match t !! Z.to_nat j with
    | Some a => ret a
    | None => raise IndexError
    end
  else raise IndexError.

(** The next draw of the random generator. *)
Definition random_draw : M Z :=
  fun g => (Ok (rng g 0%nat), set_rng (fun n => rng g (S n)) g).

(** [randint(a, b)]: an integer of [a..b], both ends included. *)
Definition randint (a b : Z) : M Z :=
  if decide (b < a) then raise ValueError
  else let* r := random_draw in ret (a + r mod (b - a + 1)).

(** [choice((x, y, ...))], on a tuple that is not empty. *)
Definition choice {A} (x : A) (xs : list A) : M A :=
  let* r := random_draw in
  ret (nth (Z.to_nat (r mod Z.of_nat (S (List.length xs)))) (x :: xs) x).

(** ** The turtle of the player

    Python's [turtle] module with exact arithmetic.  A heading is kept as
    the unit vector it points along instead of an angle in degrees. *)

(** [turtle.distance(x, y)]. *)
Definition Turtle_distance (t : Turtle) (x y : R) : R :=
  sqrt ((x - xcor t) ^ 2 + (y - ycor t) ^ 2).

(** [turtle.towards(x, y)]: the heading from the turtle to [(x, y)]; it is
    heading 0, due east, when the turtle is at [(x, y)] ([atan2(0, 0)]). *)
Definition Turtle_towards (t : Turtle) (x y : R) : R * R :=
  let d := Turtle_distance t x y in
  if decide (d = 0%R) then (1%R, 0%R)
  else (((x - xcor t) / d)%R, ((y - ycor t) / d)%R).

(** [turtle.setheading(h)]. *)
Definition Turtle_setheading (h : R * R) (t : Turtle) : Turtle :=
  mkTurtle (xcor t) (ycor t) (fst h) (snd h).

(** [turtle.forward(d)]. *)
Definition Turtle_forward (d : R) (t : Turtle) : Turtle :=
  mkTurtle (xcor t + orient_x t * d)%R (ycor t + orient_y t * d)%R
    (orient_x t) (orient_y t).

(** [turtle.setx(v)] and [turtle.sety(v)]. *)
Definition Turtle_setx (v : R) (t : Turtle) : Turtle :=
  mkTurtle v (ycor t) (orient_x t) (orient_y t).
Definition Turtle_sety (v : R) (t : Turtle) : Turtle :=
  mkTurtle (xcor t) v (orient_x t) (orient_y t).

Definition set_turtle (t : Turtle) (p : Player) : Player :=
  mkPlayer t (plr_speed p).

(** ** The [Game] frame and its canvas

    [gamelib] and the canvas are not part of this module; the five
    definitions below stand for the calls the module makes into them. *)

(** Modelled from the spec: [gamelib.Game.start] is missing; it begins the
    per-frame loop. *)
Definition Game_start : M unit := modify (set_running true).

(** Modelled from the spec: [gamelib.Game.stop] is missing; it halts the
    per-frame loop. *)
Definition Game_stop : M unit := modify (set_running false).

(** Modelled from the spec: the scheduler's [after(delay, callback)] is
    missing; it queues a one-shot delayed call. *)
Definition Game_after (delay : Z) (cb : Callback) : M unit :=
  modify (fun g => set_timers (timers g ++ [(delay, cb)]) g).

(** Modelled from the spec: the renderer's [create_text] is missing; it
    draws a text and hands out a fresh item id. *)
Definition canvas_create_text (text : string) : M nat :=
  fun g => (Ok (next_id g),
            set_canvas (texts g ++ [(next_id g, text)]) (S (next_id g)) g).

(** Modelled from the spec: the renderer's [delete] is missing; it removes
    the item of that id. *)
Definition canvas_delete (id : nat) : M unit :=
  modify (fun g =>
    set_canvas (filter (fun it => fst it <> id) (texts g)) (next_id g) g).

(** ** Waypoint and Home *)

(** [Waypoint.activate(x, y)]. *)
Definition Waypoint_activate (x y : R) : M unit :=
  modify (set_waypoint (mkWaypoint x y true)).

(** [Waypoint.deactivate()]. *)
Definition Waypoint_deactivate : M unit :=
  modify (fun g =>
    set_waypoint (mkWaypoint (wp_x (waypoint g)) (wp_y (waypoint g)) false) g).

(** [Waypoint.update(delta_time)]: a waypoint is fixed. *)
Definition Waypoint_update (delta_time : R) : M unit := ret tt.

(** [Home.update(delta_time)]: nothing to update. *)
Definition Home_update (delta_time : R) : M unit := ret tt.

(** ** Winning and losing *)

(** [TurtleAdventureGame.game_over_win()]. *)
Definition game_over_win : M unit :=
  Game_stop ;;
  let* text_id := canvas_create_text "You Win" in
  Game_after 2000 (cb_win_clear text_id).

(** [TurtleAdventureGame.game_over_lose()]; the render pass draws and
    changes no state of the model. *)
Definition game_over_lose : M unit :=
  Game_stop ;;
  let* _ := canvas_create_text "You Lose" in
  ret tt.

(** ** Player *)

(** [Player.update(delta_time)]. *)
Definition Player_update (delta_time : R) : M unit :=
  let* plr := gets player in
  let* hm := gets home in
  (if Home_contains hm (plr_x plr) (plr_y plr) then game_over_win
   else ret tt) ;;
  let* wp := gets waypoint in
  if is_active wp then
    let turtle := plr_turtle plr in
    let turtle :=
      Turtle_setheading (Turtle_towards turtle (wp_x wp) (wp_y wp)) turtle in
    let delta_dis := (plr_speed plr * delta_time)%R in
    let turtle := Turtle_forward delta_dis turtle in
    modify (set_player (set_turtle turtle plr)) ;;
    if decide (Turtle_distance turtle (wp_x wp) (wp_y wp) <= delta_dis)%R
    then Waypoint_deactivate
    else ret tt
  else ret tt.

(** ** Enemies *)

(** The enemy object [self] is the entry [self] of the game's list. *)
Definition get_enemy (self : nat) : M Enemy :=
  gets (fun g => enemies g !!! self).
Definition set_enemy (self : nat) (e : Enemy) : M unit :=
  modify (fun g => set_enemies (<[self := e]> (enemies g)) g).

(** The last five lines that the three moving enemies share:
    [self.x += (dif_x / dist) * delta_time * self.speed], the same for [y],
    and [if self.hits_player(): self.game.game_over_lose()]. *)
Definition Enemy_advance (self : nat) (dif_x dif_y dist delta_time : R)
  : M unit :=
  let* e := get_enemy self in
  let* qx := fdiv dif_x dist in
  set_enemy self
    (set_position (en_x e + qx * delta_time * en_speed e)%R (en_y e) e) ;;
  let* e := get_enemy self in
  let* qy := fdiv dif_y dist in
  set_enemy self
    (set_position (en_x e) (en_y e + qy * delta_time * en_speed e)%R e) ;;
  let* e := get_enemy self in
  let* plr := gets player in
  if Enemy_hits_player e plr then game_over_lose else ret tt.

(** [RandomWalkEnemy.update(delta_time)]; [depth] is what is left of
    Python's recursion limit. *)
Fixpoint RandomWalkEnemy_update (depth : nat) (self : nat) (delta_time : R)
  : M unit :=
  match depth with
  | O => raise RecursionError
  | S depth' =>
    let* e := get_enemy self in
    match en_strategy e with
    | RandomWalkEnemy tarx tary =>
      let dif_x := (tarx - en_x e)%R in
      let dif_y := (tary - en_y e)%R in
      let dist_sq := (dif_x ^ 2 + dif_y ^ 2)%R in
      if decide (dist_sq < delta_time * en_speed e ^ 2)%R then
        let* w := gets screen_width in
        let* tx := randint 0 w in
        let* h := gets screen_height in
        let* ty := randint 0 h in
        set_enemy self (set_strategy (RandomWalkEnemy (IZR tx) (IZR ty)) e) ;;
        RandomWalkEnemy_update depth' self delta_time
      else
        let dist := sqrt dist_sq in
        Enemy_advance self dif_x dif_y dist delta_time
    | _ => raise AttributeError
    end
  end.

(** [ChasingEnemy.update(delta_time)]. *)
Definition ChasingEnemy_update (self : nat) (delta_time : R) : M unit :=
  let* e := get_enemy self in
  let* plr := gets player in
  let dif_x := (plr_x plr - en_x e)%R in
  let dif_y := (plr_y plr - en_y e)%R in
  let dist := sqrt (dif_x ^ 2 + dif_y ^ 2) in
  Enemy_advance self dif_x dif_y dist delta_time.

(** The corner a fencing enemy heads for: [home] moved by
    [radius * (-1, 1, 1, -1)[tar_corner]] and
    [radius * (-1, 1)[tar_corner // 2]]. *)
Definition FencingEnemy_target (hm : Home) (radius tar_corner : Z)
  : M (R * R) :=
  let* sx := tuple_index [-1; 1; 1; -1] tar_corner in
  let* sy := tuple_index [-1; 1] (tar_corner / 2) in
  ret ((home_x hm + IZR (radius * sx))%R, (home_y hm + IZR (radius * sy))%R).

(** [FencingEnemy.update(delta_time)]. *)
Fixpoint FencingEnemy_update (depth : nat) (self : nat) (delta_time : R)
  : M unit :=
  match depth with
  | O => raise RecursionError
  | S depth' =>
    let* e := get_enemy self in
    match en_strategy e with
    | FencingEnemy tar_corner dir radius =>
      let* hm := gets home in
      let* tar := FencingEnemy_target hm radius tar_corner in
      let dif_x := (fst tar - en_x e)%R in
      let dif_y := (snd tar - en_y e)%R in
      let dist_sq := (dif_x ^ 2 + dif_y ^ 2)%R in
      if decide (dist_sq < delta_time * en_speed e ^ 2)%R then
        let* turn := tuple_index [1; -1] (if dir then 1 else 0) in
        set_enemy self
          (set_strategy
             (FencingEnemy ((tar_corner + turn) mod 4) dir radius) e) ;;
        FencingEnemy_update depth' self delta_time
      else
        let dist := sqrt dist_sq in
        Enemy_advance self dif_x dif_y dist delta_time
    | _ => raise AttributeError
    end
  end.

(** [DemoEnemy.update(delta_time)]. *)
Definition DemoEnemy_update (self : nat) (delta_time : R) : M unit := ret tt.

(** Dynamic dispatch of [enemy.update(delta_time)] on the enemy's class. *)
Definition Enemy_update (depth : nat) (self : nat) (delta_time : R)
  : M unit :=
  let* e := get_enemy self in
  match en_strategy e with
  | RandomWalkEnemy _ _ => RandomWalkEnemy_update depth self delta_time
  | ChasingEnemy => ChasingEnemy_update self delta_time
  | FencingEnemy _ _ _ => FencingEnemy_update depth self delta_time
  | DemoEnemy => DemoEnemy_update self delta_time
  end.

(** *** Enemy constructors *)

(** [RandomWalkEnemy(game, size, color, speed)]. *)
Definition RandomWalkEnemy_init (size : Z) (color : Color) (speed : R)
  : M Enemy :=
  let* w := gets screen_width in
  let* x := randint 0 w in
  let* h := gets screen_height in
  let* y := randint 0 h in
  let* tx := randint 0 w in
  let* ty := randint 0 h in
  ret (mkEnemy (IZR x) (IZR y) size color speed
         (RandomWalkEnemy (IZR tx) (IZR ty))).

(** [ChasingEnemy(game, size, color, speed)]. *)
Definition ChasingEnemy_init (size : Z) (color : Color) (speed : R)
  : M Enemy :=
  let* w := gets screen_width in
  let* x := randint 0 w in
  let* h := gets screen_height in
  let* y := randint 0 h in
  ret (mkEnemy (IZR x) (IZR y) size color speed ChasingEnemy).

(** [FencingEnemy(game, size, color, speed)]. *)
Definition FencingEnemy_init (size : Z) (color : Color) (speed : R)
  : M Enemy :=
  let* w := gets screen_width in
  let* x := randint 0 w in
  let* h := gets screen_height in
  let* y := randint 0 h in
  let* tar_corner := randint 0 3 in
  let* dir := choice true [false] in
  let* radius := randint 60 100 in
  ret (mkEnemy (IZR x) (IZR y) size color speed
         (FencingEnemy tar_corner dir radius)).

(** ** EnemyGenerator and the game's own methods *)

(** [TurtleAdventureGame.add_enemy(enemy)]: the enemy joins [enemies] and,
    through [add_element], the elements the frame loop walks. *)
Definition add_enemy (enemy : Enemy) : M unit :=
  modify (fun g => set_enemies (enemies g ++ [enemy]) g).

(** [EnemyGenerator.generate_spawnpos()]. *)
Definition EnemyGenerator_generate_spawnpos : M (Z * Z) :=
  let* side := choice true [false] in
  if side : bool then
    let* w := gets screen_width in
    let* x := choice 0 [w] in
    let* h := gets screen_height in
    let* y := randint 0 h in
    ret (x, y)
  else
    let* h := gets screen_height in
    let* y := choice 0 [h] in
    let* w := gets screen_width in
    let* x := randint 0 w in
    ret (x, y).

(** [int(a / b)] on two [int]s: float division, then truncation. *)
Definition int_of_quotient (a b : Z) : M Z :=
  if decide (b = 0) then raise ZeroDivisionError else ret (Z.quot a b).

(** [EnemyGenerator.create_enemy()]. *)
Definition EnemyGenerator_create_enemy : M unit :=
  let* lvl := gets enemy_generator_level in
  let enemies_to_spawn := 3 * lvl in
  let* es := gets enemies in
  if decide (Z.of_nat (List.length es) >= enemies_to_spawn) then ret tt
  else
    let* delay := int_of_quotient 3000 enemies_to_spawn in
    let* enemy_type :=
      choice RandomWalkEnemy_init [ChasingEnemy_init; FencingEnemy_init] in
    let* size := choice 15 [20; 30] in
    let* color := choice red [green; blue] in
    let* r := randint 0 30 in
    let* new_enemy := enemy_type size color (IZR (150 + r)) in
    let* pos := EnemyGenerator_generate_spawnpos in
    let new_enemy := set_position (IZR (fst pos)) (IZR (snd pos)) new_enemy in
    add_enemy new_enemy ;;
    Game_after delay cb_create_enemy.

(** [TurtleAdventureGame(parent, screen_width, screen_height, level)]
    followed by [init_game()], which the frame's constructor calls. *)
Definition TurtleAdventureGame_init
    (screen_width screen_height level : Z) (seed : nat -> Z) : Game :=
  mkGame level screen_width screen_height
    (mkWaypoint 0 0 false)
    (mkPlayer (mkTurtle 0 0 1 0) 180)
    (mkHome (IZR (screen_width - 100)) (IZR (screen_height / 2)) 20)
    []
    level
    false [] [] 0 seed.

(** [TurtleAdventureGame.start_game()]. *)
Definition start_game : M unit :=
  let* plr := gets player in
  modify (set_player (set_turtle (Turtle_setx 50 (plr_turtle plr)) plr)) ;;
  let* plr := gets player in
  let* h := gets screen_height in
  modify (set_player
            (set_turtle (Turtle_sety (IZR (h / 2)) (plr_turtle plr)) plr)) ;;
  Game_start ;;
  EnemyGenerator_create_enemy.

(** [TurtleAdventureGame.new_game()]; deleting the elements releases the
    sprites, and [enemies.clear()] empties the list. *)
Definition new_game : M unit :=
  let* lvl := gets level in
  modify (set_level (lvl + 1)) ;;
  let* lvl := gets level in
  modify (set_enemy_generator_level lvl) ;;
  modify (set_enemies []) ;;
  EnemyGenerator_create_enemy ;;
  start_game.

(** ** The event loop *)

(** What a delayed call does when its time has come. *)
Definition run_callback (cb : Callback) : M unit :=
  match cb with
  | cb_create_enemy => EnemyGenerator_create_enemy
  | cb_win_clear text_id => canvas_delete text_id ;; new_game
  end.

(** The [k]-th pending delayed call fires: it leaves the queue and runs. *)
Definition fire_timer (k : nat) : M unit :=
  let* ts := gets timers in
  match ts !! k with
  | Some (_, cb) => modify (set_timers (delete k ts)) ;; run_callback cb
  | None => ret tt
  end.

(** Modelled from the spec: [gamelib.Game.update], one pass of the frame
    loop over the elements in the order they were added: the waypoint, the
    home, the player, then every enemy. *)
Definition Game_update (depth : nat) (delta_time : R) : M unit :=
  Waypoint_update delta_time ;;
  Home_update delta_time ;;
  Player_update delta_time ;;
  let* es := gets enemies in
  for_range 0 (List.length es)
    (fun self => Enemy_update depth self delta_time).

(** One frame of the loop; nothing happens while the loop is halted. *)
Definition frame (depth : nat) (delta_time : R) : M unit :=
  let* on := gets running in
  if on : bool then Game_update depth delta_time else ret tt.

(** What can happen to a game: a click on the canvas, a frame of the loop,
    a delayed call firing, and the calls the program makes itself. *)
Inductive Event :=
| ev_click (x y : R)
| ev_frame (depth : nat) (delta_time : R)
| ev_timer (k : nat)
| ev_start_game
| ev_new_game
| ev_create_enemy.

Definition handle (ev : Event) : M unit :=
  match ev with
  | ev_click x y => Waypoint_activate x y
  | ev_frame depth delta_time => frame depth delta_time
  | ev_timer k => fire_timer k
  | ev_start_game => start_game
  | ev_new_game => new_game
  | ev_create_enemy => EnemyGenerator_create_enemy
  end.

(** The event loop goes on after a handler raised, from the state the
    handler left. *)
Definition step (ev : Event) (g : Game) : Game := exec (handle ev) g.

(** The states a game can be in: the freshly built game, and every state
    one more event leads to. *)
Inductive reachable (g0 : Game) : Game -> Prop :=
| reach_init : reachable g0 g0
| reach_step g ev : reachable g0 g -> reachable g0 (step ev g).

(** A spawn chain: a first [create_enemy()], then the delayed calls it
    queued, fired one after the other; [fuel] bounds how many are fired.
    The result counts the invocations of [create_enemy]. *)
Fixpoint drain_spawn_chain (fuel : nat) (g : Game) : nat * Game :=
  match fuel with
  | O => (O, g)
  | S fuel' =>
    match timers g with
    | (_, cb_create_enemy) :: _ =>
      let (n, g') := drain_spawn_chain fuel' (step (ev_timer 0) g) in
      (S n, g')
    | _ => (O, g)
    end
  end.

Definition spawn_chain (fuel : nat) (g : Game) : nat * Game :=
  let (n, g') := drain_spawn_chain fuel (step ev_create_enemy g) in
  (S n, g').

(** ** Vocabulary of the properties *)

(** What no frame of the loop changes: the level, the generator's copy of
    it, the screen, the home and the number of enemies. *)
Definition stable (g g' : Game) : Prop :=
  level g' = level g /\
  enemy_generator_level g' = enemy_generator_level g /\
  screen_width g' = screen_width g /\
  screen_height g' = screen_height g /\
  home g' = home g /\
  List.length (enemies g') = List.length (enemies g).

Definition keeps {A} (m : M A) : Prop := forall g, stable g (exec m g).

(** A call that only consumes random draws; on a screen of width [W] and
    height [H], both not negative, it returns. *)
Definition draws (W H : Z) {A} (m : M A) : Prop :=
  forall g, screen_width g = W -> screen_height g = H ->
    exists r, exec m g = set_rng r g /\
              (0 <= W -> 0 <= H -> exists a, m g = (Ok a, set_rng r g)).

(** The bound on the enemies, with what it needs to be inductive. *)
Definition capacity_inv (g : Game) : Prop :=
  Z.of_nat (List.length (enemies g)) <= 3 * level g /\
  enemy_generator_level g = level g /\
  0 <= level g.

(** The state after a [create_enemy()] that added an enemy. *)
Definition spawned (e : Enemy) (r : nat -> Z) (g : Game) : Game :=
  set_timers
    (timers g ++ [(Z.quot 3000 (3 * enemy_generator_level g), cb_create_enemy)])
    (set_enemies (enemies g ++ [e]) (set_rng r g)).

(** Whether handling the event calls [new_game()]: the program calls it,
    or the delayed call queued by [game_over_win()] fires. *)
Definition calls_new_game (ev : Event) (g : Game) : bool :=
  match ev with
  | ev_new_game => true
  | ev_timer k =>
    match timers g !! k with
    | Some (_, cb_win_clear _) => true
    | _ => false
    end
  | _ => false
  end.

(** The state [new_game()] has built when it starts to spawn: the level
    raised, copied to the generator, and the enemies cleared. *)
Definition next_level (g : Game) : Game :=
  set_enemies []
    (set_enemy_generator_level (level g + 1) (set_level (level g + 1) g)).

(** A spawn chain of level 1 under way: [n] enemies so far and one delayed
    [create_enemy()] pending, on a screen without a negative side. *)
Definition chain_pending (n : nat) (g : Game) : Prop :=
  List.length (enemies g) = n /\
  timers g = [(1000, cb_create_enemy)] /\
  enemy_generator_level g = 1 /\
  0 <= screen_width g /\ 0 <= screen_height g.

(** The enemy [self] of [g'] is where the enemy [e] was. *)
Definition enemy_stays (self : nat) (e : Enemy) (g' : Game) : Prop :=
  exists e', enemies g' !! self = Some e' /\
             en_x e' = en_x e /\ en_y e' = en_y e.

(** A call that reads and computes but leaves the game alone. *)
Definition pure {A} (m : M A) : Prop :=
  exists res, forall g, m g = (res, g).

(** The player's turtle after it turned to the waypoint and went forward
    by [speed * delta_time]. *)
Definition Player_moved (delta_time : R) (g : Game) : Turtle :=
  let turtle := plr_turtle (player g) in
  let wp := waypoint g in
  Turtle_forward (plr_speed (player g) * delta_time)
    (Turtle_setheading (Turtle_towards turtle (wp_x wp) (wp_y wp)) turtle).

(** The state [game_over_win()] leaves: the loop halted, "You Win" on the
    canvas, and the delayed call that clears it and starts the next level. *)
Definition won (g : Game) : Game :=
  set_timers (timers g ++ [(2000, cb_win_clear (next_id g))])
    (set_canvas (texts g ++ [(next_id g, "You Win"%string)]) (S (next_id g))
       (set_running false g)).

(** The state [game_over_lose()] leaves: the loop halted and "You Lose" on
    the canvas; no delayed call is queued. *)
Definition lost (g : Game) : Game :=
  set_canvas (texts g ++ [(next_id g, "You Lose"%string)]) (S (next_id g))
    (set_running false g).

(** The distance from the enemy [e] to the point [(tx, ty)]. *)
Definition Enemy_distance (e : Enemy) (tx ty : R) : R :=
  sqrt ((tx - en_x e) ^ 2 + (ty - en_y e) ^ 2).

(** The enemy [e] after one move of [delta_time] towards [(tx, ty)]. *)
Definition Enemy_moved (e : Enemy) (tx ty delta_time : R) : Enemy :=
  let dist := Enemy_distance e tx ty in
  set_position
    (en_x e + (tx - en_x e) / dist * delta_time * en_speed e)%R
    (en_y e + (ty - en_y e) / dist * delta_time * en_speed e)%R e.

(** What the update of an enemy may change of the enemy: its position
    always; the target of a random walk, to a point of the [w] by [h]
    screen; the corner of a fencing enemy, to an index of 0..3. *)
Definition evolves (w h : Z) (e e' : Enemy) : Prop :=
  en_size e' = en_size e /\
  en_color e' = en_color e /\
  en_speed e' = en_speed e /\
  match en_strategy e, en_strategy e' with
  | RandomWalkEnemy tarx tary, RandomWalkEnemy tarx' tary' =>
    (tarx' = tarx /\ tary' = tary) \/
    exists tx ty : Z,
      0 <= tx <= w /\ 0 <= ty <= h /\ tarx' = IZR tx /\ tary' = IZR ty
  | ChasingEnemy, ChasingEnemy => True
  | FencingEnemy c dir r, FencingEnemy c' dir' r' =>
    dir' = dir /\ r' = r /\ (c' = c \/ 0 <= c' <= 3)
  | DemoEnemy, DemoEnemy => True
  | _, _ => False
  end.

(** What the update of the enemy [self] may change of the game: that enemy,
    which becomes [e'], the random generator, the loop flag and the canvas,
    and nothing else. *)
Definition only_enemy_changed (self : nat) (e' : Enemy) (g g' : Game)
  : Prop :=
  enemies g' = <[self := e']> (enemies g) /\
  player g' = player g /\
  waypoint g' = waypoint g /\
  home g' = home g /\
  level g' = level g /\
  enemy_generator_level g' = enemy_generator_level g /\
  screen_width g' = screen_width g /\
  screen_height g' = screen_height g /\
  timers g' = timers g.

Definition enemy_updated (self : nat) (e : Enemy) (g g' : Game) : Prop :=
  exists e', only_enemy_changed self e' g g' /\
             evolves (screen_width g) (screen_height g) e e'.

(** The call did not end in a division by zero. *)
Definition no_division_fault {A} (res : result A * Game) : Prop :=
  fst res <> Raise ZeroDivisionError.


(** What the generator gives every enemy it builds for a [w] by [h]
    screen: a size of 15, 20 or 30, a whole speed of 150..180, one of the
    three moving classes, and for that class a target on the screen, or a
    corner of 0..3 with a radius of 60..100. *)
Definition strategy_ok (w h : Z) (s : Strategy) : Prop :=
  match s with
  | RandomWalkEnemy tarx tary =>
    exists tx ty : Z,
      0 <= tx <= w /\ 0 <= ty <= h /\ tarx = IZR tx /\ tary = IZR ty
  | ChasingEnemy => True
  | FencingEnemy c _ r => 0 <= c <= 3 /\ 60 <= r <= 100
  | DemoEnemy => False
  end.

Definition enemy_ok (w h : Z) (e : Enemy) : Prop :=
  In (en_size e) [15; 20; 30] /\
  (exists v : Z, 150 <= v <= 180 /\ en_speed e = IZR v) /\
  strategy_ok w h (en_strategy e).

(** The whole point [(x, y)] is on the border of the [w] by [h] screen. *)
Definition on_border (w h x y : Z) : Prop :=
  0 <= x <= w /\ 0 <= y <= h /\ (x = 0 \/ x = w \/ y = 0 \/ y = h).

(** The enemy [e] sits on a whole point of the border of the screen. *)
Definition spawns_on_border (w h : Z) (e : Enemy) : Prop :=
  exists x y : Z, en_x e = IZR x /\ en_y e = IZR y /\ on_border w h x y.

(** What every state of a game built for a [w] by [h] screen keeps. *)
Definition well_formed (w h : Z) (g : Game) : Prop :=
  screen_width g = w /\
  screen_height g = h /\
  home g = mkHome (IZR (w - 100)) (IZR (h / 2)) 20 /\
  plr_speed (player g) = 180%R /\
  Forall (enemy_ok w h) (enemies g).

Definition preserves (P : Game -> Prop) {A} (m : M A) : Prop :=
  forall g, P g -> P (exec m g).

(** A spawn chain of level [L] under way: [n] enemies so far and one
    delayed [create_enemy()] pending, on a screen without a negative side. *)
Definition chain_pending_at (L : Z) (n : nat) (g : Game) : Prop :=
  List.length (enemies g) = n /\
  timers g = [(Z.quot 3000 (3 * L), cb_create_enemy)] /\
  enemy_generator_level g = L /\
  0 <= screen_width g /\ 0 <= screen_height g.

(** Nobody has moved from [g0] to [g]: the player and every enemy are
    where they were. *)
Definition nobody_moved (g0 g : Game) : Prop :=
  plr_x (player g) = plr_x (player g0) /\
  plr_y (player g) = plr_y (player g0) /\
  forall j e, enemies g0 !! j = Some e -> enemy_stays j e g.

(** The corner of index [i] of the fence of radius [r] around the home:
    the home's position moved by (-r, -r), (+r, -r), (+r, +r), (-r, +r)
    for the index 0, 1, 2, 3. *)
Definition fence_corner (hm : Home) (r : Z) (i : Z) : R * R :=
  match i with
  | 0 => ((home_x hm - IZR r)%R, (home_y hm - IZR r)%R)
  | 1 => ((home_x hm + IZR r)%R, (home_y hm - IZR r)%R)
  | 2 => ((home_x hm + IZR r)%R, (home_y hm + IZR r)%R)
  | _ => ((home_x hm - IZR r)%R, (home_y hm + IZR r)%R)
  end.

(** The arrival test of the walking and the fencing enemy: the squared
    distance from [e] to the target [(tx, ty)] is below [dt * speed ^ 2]. *)
Definition arrived (e : Enemy) (tx ty dt : R) : Prop :=
  ((tx - en_x e) ^ 2 + (ty - en_y e) ^ 2 < dt * en_speed e ^ 2)%R.

(** The same test as lines 292 and 379 compute it in binary64, for an enemy
    at [(x, y)] of speed [speed], the target [(tx, ty)] and the time delta
    [dt]: the two differences, their squares, the sum and the product with
    [dt] are each rounded to the nearest float.  [v ** 2] is the rounded
    product [v * v], exact for the whole speeds the generator gives. *)
Definition arrived_binary64 (x y speed tx ty dt : float) : bool :=
  PrimFloat.ltb
    (PrimFloat.add
       (PrimFloat.mul (PrimFloat.sub tx x) (PrimFloat.sub tx x))
       (PrimFloat.mul (PrimFloat.sub ty y) (PrimFloat.sub ty y)))
    (PrimFloat.mul dt (PrimFloat.mul speed speed)).

(** The float [f] is finite and the real number [v] is its value. *)
Definition stands_for (f : float) (v : R) : Prop :=
  PrimFloat.is_finite f = true /\ binary64_value f = v.

(** The test on arrival answers [b] for the enemy [e], the target
    [(tx, ty)] and the time delta [dt], both ways: in exact arithmetic, and
    in binary64 on the floats whose values these numbers are.  The two
    differ only where the rounding decides, as for a squared distance of
    3240, a speed of 180 and the float nearest to 0.1, just above 1/10:
    [3240 < 0.1 * 180 ** 2] is False in binary64. *)
Definition arrival_decided (e : Enemy) (tx ty dt : R) (b : bool) : Prop :=
  (arrived e tx ty dt <-> b = true) /\
  exists x y speed ftx fty fdt : float,
    stands_for x (en_x e) /\ stands_for y (en_y e) /\
    stands_for speed (en_speed e) /\
    stands_for ftx tx /\ stands_for fty ty /\ stands_for fdt dt /\
    arrived_binary64 x y speed ftx fty fdt = b.

(** * Properties *)

(** ** Geometry *)

Lemma bool_decide_Rle (x y : R) : bool_decide (x <= y)%R = true <-> (x <= y)%R.
Proof. apply bool_decide_eq_true. Qed.

Lemma Home_contains_iff (h : Home) (a b : R) :
  Home_contains h a b = true <->
  (home_x h - IZR (home_size h) / 2 <= a <= home_x h + IZR (home_size h) / 2)%R
  /\
  (home_y h - IZR (home_size h) / 2 <= b <= home_y h + IZR (home_size h) / 2)%R.
Proof.
  unfold Home_contains.
  rewrite !andb_true_iff, !bool_decide_Rle. tauto.
Qed.

(** C9.  [Home.contains(x, y)] is the bounds test of the square of
    half-width [size / 2] centred at the home, inclusive on all four edges:
    every point of the left, right, top and bottom edge is contained. *)
Theorem Home_contains_inclusive (h : Home) (x y : R) :
  let x1 := (home_x h - IZR (home_size h) / 2)%R in
  let x2 := (home_x h + IZR (home_size h) / 2)%R in
  let y1 := (home_y h - IZR (home_size h) / 2)%R in
  let y2 := (home_y h + IZR (home_size h) / 2)%R in
  (Home_contains h x y = true <->
   (x1 <= x <= x2)%R /\ (y1 <= y <= y2)%R) /\
  ((y1 <= y <= y2)%R ->
   Home_contains h x1 y = true /\ Home_contains h x2 y = true) /\
  ((x1 <= x <= x2)%R ->
   Home_contains h x y1 = true /\ Home_contains h x y2 = true).
Proof.
  intros x1 x2 y1 y2. subst x1 x2 y1 y2.
  split; [apply Home_contains_iff|].
  split; intros Hin; split; apply Home_contains_iff; lra.
Qed.

Lemma Home_contains_inclusive_witness :
  Home_contains (mkHome 700 250 20) (700 - IZR 20 / 2) 250 = true /\
  Home_contains (mkHome 700 250 20) 700 (250 + IZR 20 / 2) = true.
Proof.
  split.
  - apply (Home_contains_inclusive (mkHome 700 250 20) 700 250); simpl; lra.
  - apply (Home_contains_inclusive (mkHome 700 250 20) 700 250); simpl; lra.
Defined.





(** ** The monad *)

Lemma bind_ret {A B} (a : A) (f : A -> M B) g : bind (ret a) f g = f a g.
Proof. reflexivity. Qed.

Lemma bind_gets {A B} (p : Game -> A) (f : A -> M B) g :
  bind (gets p) f g = f (p g) g.
Proof. reflexivity. Qed.

Lemma bind_modify {B} (u : Game -> Game) (f : unit -> M B) g :
  bind (modify u) f g = f tt (u g).
Proof. reflexivity. Qed.

Lemma bind_raise {A B} (e : exn) (f : A -> M B) g :
  bind (raise e) f g = (Raise e, g).
Proof. reflexivity. Qed.

Lemma exec_bind {A B} (m : M A) (f : A -> M B) g :
  exec (bind m f) g
  = match fst (m g) with
    | Ok a => exec (f a) (exec m g)
    | Raise _ => exec m g
    end.
Proof. unfold exec, bind. destruct (m g) as [[a|e] g']; reflexivity. Qed.

Lemma set_rng_id g : set_rng (rng g) g = g.
Proof. destruct g; reflexivity. Qed.

(** ** What a frame keeps *)

Lemma stable_refl g : stable g g.
Proof. repeat split. Qed.

Lemma stable_trans g1 g2 g3 : stable g1 g2 -> stable g2 g3 -> stable g1 g3.
Proof. unfold stable. intuition congruence. Qed.

Lemma keeps_ret {A} (a : A) : keeps (ret a).
Proof. intros g. apply stable_refl. Qed.

Lemma keeps_raise {A} (e : exn) : keeps (@raise A e).
Proof. intros g. apply stable_refl. Qed.

Lemma keeps_gets {A} (p : Game -> A) : keeps (gets p).
Proof. intros g. apply stable_refl. Qed.

Lemma keeps_modify (u : Game -> Game) :
  (forall g, stable g (u g)) -> keeps (modify u).
Proof. intros H g. apply H. Qed.

Lemma keeps_bind {A B} (m : M A) (f : A -> M B) :
  keeps m -> (forall a, keeps (f a)) -> keeps (bind m f).
Proof.
  intros Hm Hf g. rewrite exec_bind.
  destruct (fst (m g)); [|apply Hm].
  eapply stable_trans; [apply Hm | apply Hf].
Qed.

Lemma keeps_if {A} (b : bool) (m1 m2 : M A) :
  keeps m1 -> keeps m2 -> keeps (if b then m1 else m2).
Proof. destruct b; auto. Qed.

Lemma keeps_decide {A} (P : Prop) `{Decision P} (m1 m2 : M A) :
  keeps m1 -> keeps m2 -> keeps (if decide P then m1 else m2).
Proof. destruct (decide P); auto. Qed.

Lemma keeps_random_draw : keeps random_draw.
Proof. intros g. repeat split. Qed.

Create HintDb keeps discriminated.
#[local] Hint Resolve keeps_ret keeps_raise keeps_gets keeps_random_draw
  : keeps.

(** Walks a method body statement by statement. *)
Ltac keeps_step :=
  lazymatch goal with
  | |- keeps (bind _ _) => apply keeps_bind; [|intros ?]
  | |- keeps (if decide _ then _ else _) => apply keeps_decide
  | |- keeps (if _ then _ else _) => apply keeps_if
  | |- keeps (match ?x with Some _ => _ | None => _ end) => destruct x
  | |- keeps (modify _) => apply keeps_modify; intros ?; repeat split
  | |- keeps _ => solve [auto with keeps]
  end.
Ltac keeps_all := repeat keeps_step.

Lemma keeps_fdiv a b : keeps (fdiv a b).
Proof. unfold fdiv. keeps_all. Qed.

Lemma keeps_tuple_index {A} (t : list A) i : keeps (tuple_index t i).
Proof. unfold tuple_index. keeps_all. Qed.

Lemma keeps_randint a b : keeps (randint a b).
Proof. unfold randint. keeps_all. Qed.

Lemma keeps_choice {A} (x : A) xs : keeps (choice x xs).
Proof. unfold choice. keeps_all. Qed.

Lemma keeps_get_enemy self : keeps (get_enemy self).
Proof. unfold get_enemy. keeps_all. Qed.

Lemma keeps_set_enemy self e : keeps (set_enemy self e).
Proof.
  unfold set_enemy. apply keeps_modify. intros g.
  repeat split. simpl. apply length_insert.
Qed.

#[local] Hint Resolve keeps_fdiv keeps_tuple_index keeps_randint
  keeps_choice keeps_get_enemy keeps_set_enemy : keeps.

Lemma keeps_game_over_win : keeps game_over_win.
Proof.
  unfold game_over_win, Game_stop, Game_after. keeps_all.
Qed.

Lemma keeps_game_over_lose : keeps game_over_lose.
Proof.
  unfold game_over_lose, Game_stop. keeps_all.
Qed.

Lemma keeps_Waypoint_activate x y : keeps (Waypoint_activate x y).
Proof. unfold Waypoint_activate. keeps_all. Qed.

Lemma keeps_Waypoint_deactivate : keeps Waypoint_deactivate.
Proof. unfold Waypoint_deactivate. keeps_all. Qed.

#[local] Hint Resolve keeps_game_over_win keeps_game_over_lose
  keeps_Waypoint_activate keeps_Waypoint_deactivate : keeps.

Lemma keeps_Player_update dt : keeps (Player_update dt).
Proof. unfold Player_update. keeps_all. Qed.

Lemma keeps_Enemy_advance self dx dy d dt :
  keeps (Enemy_advance self dx dy d dt).
Proof. unfold Enemy_advance. keeps_all. Qed.

#[local] Hint Resolve keeps_Player_update keeps_Enemy_advance : keeps.

Lemma keeps_RandomWalkEnemy_update depth self dt :
  keeps (RandomWalkEnemy_update depth self dt).
Proof.
  induction depth as [|depth IH]; simpl; [auto with keeps|].
  apply keeps_bind; [auto with keeps|]. intros e.
  destruct (en_strategy e); auto with keeps.
  keeps_all.
Qed.

Lemma keeps_ChasingEnemy_update self dt : keeps (ChasingEnemy_update self dt).
Proof. unfold ChasingEnemy_update. keeps_all. Qed.

Lemma keeps_FencingEnemy_target hm r c : keeps (FencingEnemy_target hm r c).
Proof. unfold FencingEnemy_target. keeps_all. Qed.

#[local] Hint Resolve keeps_FencingEnemy_target : keeps.

Lemma keeps_FencingEnemy_update depth self dt :
  keeps (FencingEnemy_update depth self dt).
Proof.
  induction depth as [|depth IH]; simpl; [auto with keeps|].
  apply keeps_bind; [auto with keeps|]. intros e.
  destruct (en_strategy e); auto with keeps.
  keeps_all.
Qed.

Lemma keeps_Enemy_update depth self dt : keeps (Enemy_update depth self dt).
Proof.
  unfold Enemy_update. apply keeps_bind; [auto with keeps|]. intros e.
  destruct (en_strategy e).
  - apply keeps_RandomWalkEnemy_update.
  - apply keeps_ChasingEnemy_update.
  - apply keeps_FencingEnemy_update.
  - apply keeps_ret.
Qed.

Lemma keeps_for_range body i n :
  (forall j, keeps (body j)) -> keeps (for_range i n body).
Proof.
  intros Hb. revert i. induction n as [|n IH]; intros i; simpl.
  - apply keeps_ret.
  - apply keeps_bind; [apply Hb | intros _; apply IH].
Qed.

Lemma keeps_frame depth dt : keeps (frame depth dt).
Proof.
  unfold frame, Game_update, Waypoint_update, Home_update. keeps_all.
  apply keeps_for_range. intros j. apply keeps_Enemy_update.
Qed.

(** ** Calls that only draw random numbers *)

Section Draws.
Variables W H : Z.

Lemma draws_ret {A} (a : A) : draws W H (ret a).
Proof.
  intros g _ _. exists (rng g). unfold exec, ret; simpl.
  rewrite set_rng_id. eauto.
Qed.

Lemma draws_bind {A B} (m : M A) (f : A -> M B) :
  draws W H m -> (forall a, draws W H (f a)) -> draws W H (bind m f).
Proof.
  intros Hm Hf g HW HH.
  destruct (Hm g HW HH) as (r & Hr & Hok).
  unfold exec in *. unfold bind.
  destruct (m g) as [[a|e] g1] eqn:Em; simpl in Hr; subst g1.
  - destruct (Hf a (set_rng r g) HW HH) as (r' & Hr' & Hok').
    exists r'. split; [exact Hr'|].
    intros HW0 HH0. apply Hok'; assumption.
  - exists r. split; [reflexivity|].
    intros HW0 HH0. destruct (Hok HW0 HH0) as (a & Ha). discriminate.
Qed.

Lemma draws_width {A} (f : Z -> M A) :
  draws W H (f W) -> draws W H (bind (gets screen_width) f).
Proof.
  intros Hf g HW HH. unfold exec. rewrite bind_gets, HW.
  apply Hf; assumption.
Qed.

Lemma draws_height {A} (f : Z -> M A) :
  draws W H (f H) -> draws W H (bind (gets screen_height) f).
Proof.
  intros Hf g HW HH. unfold exec. rewrite bind_gets, HH.
  apply Hf; assumption.
Qed.

Lemma draws_random_draw : draws W H random_draw.
Proof. intros g _ _. eexists. split; [reflexivity|]. eauto. Qed.

Lemma draws_randint (a b : Z) : a <= b -> draws W H (randint a b).
Proof.
  intros Hab. unfold randint. destruct (decide (b < a)); [lia|].
  apply draws_bind; [apply draws_random_draw | intros; apply draws_ret].
Qed.

Lemma draws_randint_width : draws W H (randint 0 W).
Proof.
  unfold randint. destruct (decide (W < 0)).
  - intros g _ _. exists (rng g). unfold exec, raise; simpl.
    rewrite set_rng_id. split; [reflexivity | intros; lia].
  - apply draws_bind; [apply draws_random_draw | intros; apply draws_ret].
Qed.

Lemma draws_randint_height : draws W H (randint 0 H).
Proof.
  unfold randint. destruct (decide (H < 0)).
  - intros g _ _. exists (rng g). unfold exec, raise; simpl.
    rewrite set_rng_id. split; [reflexivity | intros; lia].
  - apply draws_bind; [apply draws_random_draw | intros; apply draws_ret].
Qed.

Lemma draws_choice {A} (x : A) xs : draws W H (choice x xs).
Proof.
  unfold choice.
  apply draws_bind; [apply draws_random_draw | intros; apply draws_ret].
Qed.
End Draws.

Ltac draws_step :=
  lazymatch goal with
  | |- draws _ _ (bind (gets screen_width) _) => apply draws_width
  | |- draws _ _ (bind (gets screen_height) _) => apply draws_height
  | |- draws _ _ (bind _ _) => apply draws_bind; [|intros ?]
  | |- draws _ _ (if ?b then _ else _) => destruct b
  | |- draws _ _ (randint 0 ?w) =>
      first [ apply draws_randint_width | apply draws_randint_height
            | apply draws_randint; lia ]
  | |- draws _ _ (randint _ _) => apply draws_randint; lia
  | |- draws _ _ (choice _ _) => apply draws_choice
  | |- draws _ _ (ret _) => apply draws_ret
  end.
Ltac draws_all := repeat draws_step.

Lemma draws_RandomWalkEnemy_init W H size color speed :
  draws W H (RandomWalkEnemy_init size color speed).
Proof. unfold RandomWalkEnemy_init. draws_all. Qed.

Lemma draws_ChasingEnemy_init W H size color speed :
  draws W H (ChasingEnemy_init size color speed).
Proof. unfold ChasingEnemy_init. draws_all. Qed.

Lemma draws_FencingEnemy_init W H size color speed :
  draws W H (FencingEnemy_init size color speed).
Proof. unfold FencingEnemy_init. draws_all. Qed.

Lemma draws_generate_spawnpos W H :
  draws W H EnemyGenerator_generate_spawnpos.
Proof. unfold EnemyGenerator_generate_spawnpos. draws_all. Qed.

(** One statement of a method that only draws: either it raised, which a
    screen with a side below zero alone can cause, or the rest of the method
    runs on the state with its random generator advanced. *)
Lemma bind_draws {A B} (m : M A) (f : A -> M B) (g : Game)
    (Q : result B * Game -> Prop) :
  draws (screen_width g) (screen_height g) m ->
  (forall r e, ~ (0 <= screen_width g /\ 0 <= screen_height g) ->
               Q (Raise e, set_rng r g)) ->
  (forall r a, Q (f a (set_rng r g))) ->
  Q (bind m f g).
Proof.
  intros Hm Hraise Hok.
  destruct (Hm g eq_refl eq_refl) as (r & Hr & Hsucc).
  unfold exec in Hr. unfold bind.
  destruct (m g) as [[a|e] g1] eqn:Em; simpl in Hr; subst g1.
  - apply Hok.
  - apply Hraise. intros [HW HH].
    destruct (Hsucc HW HH) as (a & Ha). discriminate.
Qed.

Lemma bind_choice {A B} (x : A) (xs : list A) (f : A -> M B) (g : Game)
    (Q : result B * Game -> Prop) :
  (forall a, In a (x :: xs) -> Q (f a (set_rng (fun n => rng g (S n)) g))) ->
  Q (bind (choice x xs) f g).
Proof.
  intros Hok. unfold choice, bind, random_draw, ret.
  apply Hok.
  destruct (nth_in_or_default
              (Z.to_nat (rng g 0%nat mod Z.of_nat (S (List.length xs))))
              (x :: xs) x) as [Hin|Heq].
  - exact Hin.
  - rewrite Heq. left. reflexivity.
Qed.

Lemma create_enemy_at_capacity g :
  3 * enemy_generator_level g <= Z.of_nat (List.length (enemies g)) ->
  EnemyGenerator_create_enemy g = (Ok tt, g).
Proof.
  intros Hcap. unfold EnemyGenerator_create_enemy.
  rewrite !bind_gets.
  destruct (decide _) as [_|Hn]; [reflexivity | lia].
Qed.

Lemma create_enemy_below_capacity g :
  Z.of_nat (List.length (enemies g)) < 3 * enemy_generator_level g ->
  exists r,
    (exec EnemyGenerator_create_enemy g = set_rng r g \/
     exists e, EnemyGenerator_create_enemy g = (Ok tt, spawned e r g)) /\
    (0 <= screen_width g -> 0 <= screen_height g ->
     exists e, EnemyGenerator_create_enemy g = (Ok tt, spawned e r g)).
Proof.
  intros Hcap.
  set (Q := fun res : result unit * Game =>
    exists r,
      (snd res = set_rng r g \/ exists e, res = (Ok tt, spawned e r g)) /\
      (0 <= screen_width g -> 0 <= screen_height g ->
       exists e, res = (Ok tt, spawned e r g))).
  change (Q (EnemyGenerator_create_enemy g)).
  unfold EnemyGenerator_create_enemy.
  rewrite !bind_gets.
  destruct (decide _) as [Hge|_]; [lia|].
  unfold int_of_quotient.
  destruct (decide (3 * enemy_generator_level g = 0)) as [H0|_]; [lia|].
  rewrite bind_ret.
  assert (Hraise : forall r e,
            ~ (0 <= screen_width g /\ 0 <= screen_height g) ->
            Q (Raise e, set_rng r g)).
  { intros r e Hbad. exists r. split; [left; reflexivity|].
    intros HW HH. destruct Hbad. split; assumption. }
  apply bind_choice. intros enemy_type Hty.
  apply bind_choice. intros size _.
  apply bind_choice. intros color _.
  apply bind_draws; [apply draws_randint; lia | exact Hraise |].
  intros r1 sp.
  apply bind_draws; [| exact Hraise |].
  { simpl in Hty.
    destruct Hty as [<-|[<-|[<-|[]]]].
    - apply draws_RandomWalkEnemy_init.
    - apply draws_ChasingEnemy_init.
    - apply draws_FencingEnemy_init. }
  intros r2 new_enemy.
  apply bind_draws; [apply draws_generate_spawnpos | exact Hraise |].
  intros r3 pos.
  exists r3. split; [right|intros _ _]; eexists; reflexivity.
Qed.

(** ** The level and the number of enemies *)

Lemma create_enemy_effect g :
  let g' := exec EnemyGenerator_create_enemy g in
  level g' = level g /\
  enemy_generator_level g' = enemy_generator_level g /\
  (List.length (enemies g') = List.length (enemies g) \/
   (Z.of_nat (List.length (enemies g)) < 3 * enemy_generator_level g /\
    List.length (enemies g') = S (List.length (enemies g)))).
Proof.
  destruct (Z_lt_le_dec (Z.of_nat (List.length (enemies g)))
              (3 * enemy_generator_level g)) as [Hlt|Hge].
  - destruct (create_enemy_below_capacity g Hlt) as (r & [Hr|(e & He)] & _);
      simpl; unfold exec in *.
    + rewrite Hr. auto.
    + rewrite He. simpl. repeat split. right. split; [assumption|].
      rewrite length_app. simpl. lia.
  - simpl. unfold exec. rewrite (create_enemy_at_capacity g Hge). auto.
Qed.

Lemma start_game_eq g :
  start_game g
  = EnemyGenerator_create_enemy
      (set_running true
         (set_player
            (set_turtle
               (Turtle_sety (IZR (screen_height g / 2))
                  (Turtle_setx 50 (plr_turtle (player g))))
               (player g)) g)).
Proof. reflexivity. Qed.

Lemma new_game_eq g :
  new_game g = (EnemyGenerator_create_enemy ;; start_game) (next_level g).
Proof. reflexivity. Qed.

Lemma start_game_effect g :
  let g' := exec start_game g in
  level g' = level g /\
  enemy_generator_level g' = enemy_generator_level g /\
  (List.length (enemies g') = List.length (enemies g) \/
   (Z.of_nat (List.length (enemies g)) < 3 * enemy_generator_level g /\
    List.length (enemies g') = S (List.length (enemies g)))).
Proof.
  unfold exec. rewrite start_game_eq.
  exact (create_enemy_effect
           (set_running true
              (set_player
                 (set_turtle
                    (Turtle_sety (IZR (screen_height g / 2))
                       (Turtle_setx 50 (plr_turtle (player g))))
                    (player g)) g))).
Qed.

Lemma capacity_inv_create_enemy g :
  capacity_inv g -> capacity_inv (exec EnemyGenerator_create_enemy g).
Proof.
  unfold capacity_inv. intros (Hn & Hg & Hl).
  destruct (create_enemy_effect g) as (El & Eg & Hlen).
  rewrite El, Eg. repeat split; try assumption.
  destruct Hlen as [->|[Hlt ->]]; lia.
Qed.

Lemma capacity_inv_start_game g :
  capacity_inv g -> capacity_inv (exec start_game g).
Proof.
  unfold capacity_inv. intros (Hn & Hg & Hl).
  destruct (start_game_effect g) as (El & Eg & Hlen).
  rewrite El, Eg. repeat split; try assumption.
  destruct Hlen as [->|[Hlt ->]]; lia.
Qed.

Lemma new_game_effect g :
  level (exec new_game g) = level g + 1 /\
  enemy_generator_level (exec new_game g) = level g + 1 /\
  (0 <= level g -> capacity_inv (exec new_game g)).
Proof.
  assert (E : exec new_game g
             = exec (EnemyGenerator_create_enemy ;; start_game)
                 (next_level g)) by reflexivity.
  rewrite E, exec_bind.
  assert (Hinv : 0 <= level g -> capacity_inv (next_level g)).
  { intros Hl. unfold capacity_inv; simpl. lia. }
  destruct (create_enemy_effect (next_level g)) as (El & Eg & _).
  destruct (fst (EnemyGenerator_create_enemy (next_level g))).
  - destruct (start_game_effect (exec EnemyGenerator_create_enemy (next_level g)))
      as (El' & Eg' & _).
    rewrite El', Eg', El, Eg. simpl. split; [|split]; try reflexivity.
    intros Hl. apply capacity_inv_start_game, capacity_inv_create_enemy; auto.
  - rewrite El, Eg. simpl. split; [|split]; try reflexivity.
    intros Hl. apply capacity_inv_create_enemy; auto.
Qed.

Lemma capacity_inv_stable g g' :
  stable g g' -> capacity_inv g -> capacity_inv g'.
Proof.
  unfold stable, capacity_inv.
  intros (El & Eg & _ & _ & _ & En). rewrite El, Eg, En. tauto.
Qed.

Lemma create_enemy_levels g :
  level (exec EnemyGenerator_create_enemy g) = level g /\
  enemy_generator_level (exec EnemyGenerator_create_enemy g)
  = enemy_generator_level g.
Proof. destruct (create_enemy_effect g) as (El & Eg & _). auto. Qed.

Lemma start_game_levels g :
  level (exec start_game g) = level g /\
  enemy_generator_level (exec start_game g) = enemy_generator_level g.
Proof. destruct (start_game_effect g) as (El & Eg & _). auto. Qed.

Lemma fire_timer_eq k g :
  fire_timer k g
  = match timers g !! k with
    | Some (_, cb) => run_callback cb (set_timers (delete k (timers g)) g)
    | None => (Ok tt, g)
    end.
Proof.
  unfold fire_timer. rewrite bind_gets.
  destruct (timers g !! k) as [[d cb]|]; reflexivity.
Qed.

Lemma step_levels ev g :
  level (step ev g)
  = (if calls_new_game ev g then level g + 1 else level g) /\
  enemy_generator_level (step ev g)
  = (if calls_new_game ev g then level g + 1 else enemy_generator_level g).
Proof.
  destruct ev as [x y|depth dt|k| | |]; unfold step; simpl.
  - split; reflexivity.
  - destruct (keeps_frame depth dt g) as (El & Eg & _). auto.
  - unfold exec. rewrite fire_timer_eq.
    destruct (timers g !! k) as [[d [|text_id]]|]; simpl; auto.
    + exact (create_enemy_levels (set_timers (delete k (timers g)) g)).
    + destruct (new_game_effect
                  (set_canvas
                     (filter (fun it => fst it <> text_id) (texts g))
                     (next_id g)
                     (set_timers (delete k (timers g)) g)))
        as (El & Eg & _).
      split; [exact El | exact Eg].
  - apply start_game_levels.
  - destruct (new_game_effect g) as (El & Eg & _). auto.
  - apply create_enemy_levels.
Qed.

Lemma step_capacity_inv ev g : capacity_inv g -> capacity_inv (step ev g).
Proof.
  intros Hinv.
  destruct ev as [x y|depth dt|k| | |]; unfold step; simpl.
  - exact Hinv.
  - eapply capacity_inv_stable; [apply keeps_frame | exact Hinv].
  - unfold exec. rewrite fire_timer_eq.
    destruct (timers g !! k) as [[d [|text_id]]|]; simpl; auto.
    + apply (capacity_inv_create_enemy (set_timers (delete k (timers g)) g)).
      exact Hinv.
    + apply (new_game_effect
               (set_canvas
                  (filter (fun it => fst it <> text_id) (texts g))
                  (next_id g)
                  (set_timers (delete k (timers g)) g))).
      apply Hinv.
  - apply capacity_inv_start_game, Hinv.
  - apply new_game_effect, Hinv.
  - apply capacity_inv_create_enemy, Hinv.
Qed.

Lemma reachable_capacity_inv g0 g :
  capacity_inv g0 -> reachable g0 g -> capacity_inv g.
Proof.
  intros H0 Hr. induction Hr as [|g ev Hr IH]; [exact H0|].
  apply step_capacity_inv, IH.
Qed.

Lemma reachable_level_mono g0 g : reachable g0 g -> level g0 <= level g.
Proof.
  intros Hr. induction Hr as [|g ev Hr IH]; [lia|].
  destruct (step_levels ev g) as (El & _). rewrite El.
  destruct (calls_new_game ev g); lia.
Qed.

(** C4.  In every state the game can reach from a level that is not
    negative, the enemies number at most [3 * level]; there
    [create_enemy()] changes nothing, neither the enemies nor the delayed
    calls, when the enemies already number [3 * level] or more, and below
    that it adds one enemy and queues one delayed call of itself (on a
    screen with a negative side it may raise instead, adding nothing).
    The states reached include those with several spawn chains pending. *)
Theorem enemies_bounded_by_capacity
    (w h l : Z) (seed : nat -> Z) (g : Game) :
  0 <= l ->
  reachable (TurtleAdventureGame_init w h l seed) g ->
  Z.of_nat (List.length (enemies g)) <= 3 * level g /\
  (3 * level g <= Z.of_nat (List.length (enemies g)) ->
   EnemyGenerator_create_enemy g = (Ok tt, g)) /\
  (Z.of_nat (List.length (enemies g)) < 3 * level g ->
   exists r,
     (exec EnemyGenerator_create_enemy g = set_rng r g \/
      exists e, EnemyGenerator_create_enemy g = (Ok tt, spawned e r g)) /\
     (0 <= screen_width g -> 0 <= screen_height g ->
      exists e,
        EnemyGenerator_create_enemy g = (Ok tt, spawned e r g) /\
        enemies (spawned e r g) = enemies g ++ [e] /\
        timers (spawned e r g)
        = timers g ++ [(Z.quot 3000 (3 * level g), cb_create_enemy)])).
Proof.
  intros Hl Hr.
  assert (Hinv : capacity_inv g).
  { eapply reachable_capacity_inv; [|exact Hr].
    unfold capacity_inv; simpl. lia. }
  destruct Hinv as (Hn & Hg & _).
  split; [exact Hn|]. rewrite <- Hg. split.
  - apply create_enemy_at_capacity.
  - intros Hlt.
    destruct (create_enemy_below_capacity g Hlt) as (r & Hcases & Hok).
    exists r. split; [exact Hcases|].
    intros HW HH. destruct (Hok HW HH) as (e & He).
    exists e. repeat split. exact He.
Qed.

Lemma enemies_bounded_by_capacity_witness :
  Z.of_nat (List.length (enemies (TurtleAdventureGame_init 800 500 1 (fun _ => 0))))
  <= 3 * level (TurtleAdventureGame_init 800 500 1 (fun _ => 0)).
Proof.
  apply (enemies_bounded_by_capacity 800 500 1 (fun _ => 0)).
  - lia.
  - apply reach_init.
Defined.

Lemma reachable_generator_level g0 g :
  enemy_generator_level g0 = level g0 ->
  reachable g0 g -> enemy_generator_level g = level g.
Proof.
  intros H0 Hr. induction Hr as [|g ev Hr IH]; [exact H0|].
  destruct (step_levels ev g) as (El & Eg). rewrite El, Eg.
  destruct (calls_new_game ev g); [reflexivity | exact IH].
Qed.

(** C10.  The level is set by the constructor and never decreases: an
    event changes it only when it calls [new_game()], which raises it by
    exactly 1; [new_game()] copies the raised level to the enemy generator
    before it spawns, so the generator's level is the game's level after
    every event. *)
Theorem level_changes_only_in_new_game
    (w h l : Z) (seed : nat -> Z) (g : Game) (ev : Event) :
  reachable (TurtleAdventureGame_init w h l seed) g ->
  level (TurtleAdventureGame_init w h l seed) = l /\
  l <= level g /\
  level g <= level (step ev g) /\
  level (step ev g)
  = (if calls_new_game ev g then level g + 1 else level g) /\
  enemy_generator_level (step ev g) = level (step ev g) /\
  level (exec new_game g) = level g + 1 /\
  enemy_generator_level (exec new_game g) = level g + 1 /\
  new_game g = (EnemyGenerator_create_enemy ;; start_game) (next_level g) /\
  level (next_level g) = level g + 1 /\
  enemy_generator_level (next_level g) = level g + 1.
Proof.
  intros Hr.
  pose proof (reachable_level_mono _ _ Hr) as Hmono. simpl in Hmono.
  pose proof (reachable_generator_level
                (TurtleAdventureGame_init w h l seed) g eq_refl Hr) as Hgen.
  destruct (step_levels ev g) as (El & Eg).
  destruct (new_game_effect g) as (Nl & Ng & _).
  split; [reflexivity|]. split; [exact Hmono|].
  split; [rewrite El; destruct (calls_new_game ev g); lia|].
  split; [exact El|].
  split; [rewrite El, Eg; destruct (calls_new_game ev g); congruence|].
  split; [exact Nl|]. split; [exact Ng|].
  split; [apply new_game_eq|]. split; reflexivity.
Qed.

Lemma level_changes_only_in_new_game_witness :
  level (step ev_new_game (TurtleAdventureGame_init 800 500 1 (fun _ => 0)))
  = 2 /\
  level (step ev_create_enemy
           (TurtleAdventureGame_init 800 500 1 (fun _ => 0))) = 1.
Proof.
  split.
  - apply (level_changes_only_in_new_game 800 500 1 (fun _ => 0)
             (TurtleAdventureGame_init 800 500 1 (fun _ => 0)) ev_new_game).
    apply reach_init.
  - apply (level_changes_only_in_new_game 800 500 1 (fun _ => 0)
             (TurtleAdventureGame_init 800 500 1 (fun _ => 0))
             ev_create_enemy).
    apply reach_init.
Defined.

(** ** The spawn chain of level 1 *)

Lemma create_enemy_spawns g :
  0 <= screen_width g -> 0 <= screen_height g ->
  Z.of_nat (List.length (enemies g)) < 3 * enemy_generator_level g ->
  exists e r, EnemyGenerator_create_enemy g = (Ok tt, spawned e r g).
Proof.
  intros HW HH Hlt.
  destruct (create_enemy_below_capacity g Hlt) as (r & _ & Hok).
  destruct (Hok HW HH) as (e & He). eauto.
Qed.

Lemma chain_first w h seed :
  0 <= w -> 0 <= h ->
  chain_pending 1 (step ev_create_enemy (TurtleAdventureGame_init w h 1 seed)).
Proof.
  intros HW HH. unfold step, exec; simpl.
  destruct (create_enemy_spawns (TurtleAdventureGame_init w h 1 seed))
    as (e & r & ->); simpl; try lia.
  repeat split; assumption.
Qed.

Lemma chain_next n g :
  chain_pending n g -> (n < 3)%nat ->
  chain_pending (S n) (step (ev_timer 0) g).
Proof.
  intros (Hn & Ht & Hg & HW & HH) Hlt.
  unfold step, exec; simpl. rewrite fire_timer_eq, Ht. simpl.
  destruct (create_enemy_spawns (set_timers [] g)) as (e & r & ->);
    simpl; try assumption; try lia.
  unfold chain_pending; simpl. rewrite length_app, Hn, Hg. simpl.
  repeat split; try assumption. lia.
Qed.

Lemma chain_last g :
  chain_pending 3 g -> step (ev_timer 0) g = set_timers [] g.
Proof.
  intros (Hn & Ht & Hg & HW & HH).
  unfold step, exec; simpl. rewrite fire_timer_eq, Ht. simpl.
  rewrite create_enemy_at_capacity; [reflexivity|].
  simpl. rewrite Hn, Hg. lia.
Qed.

Lemma drain_spawn_chain_pending fuel g d ts :
  timers g = (d, cb_create_enemy) :: ts ->
  drain_spawn_chain (S fuel) g
  = (S (fst (drain_spawn_chain fuel (step (ev_timer 0) g))),
     snd (drain_spawn_chain fuel (step (ev_timer 0) g))).
Proof.
  intros Ht. simpl. rewrite Ht.
  destruct (drain_spawn_chain fuel (step (ev_timer 0) g)). reflexivity.
Qed.

Lemma drain_spawn_chain_idle fuel g :
  timers g = [] -> drain_spawn_chain fuel g = (O, g).
Proof. intros Ht. destruct fuel; simpl; [|rewrite Ht]; reflexivity. Qed.

Lemma level_1_chain_run w h seed fuel :
  0 <= w -> 0 <= h ->
  let g0 := TurtleAdventureGame_init w h 1 seed in
  let g3 := step (ev_timer 0) (step (ev_timer 0) (step ev_create_enemy g0)) in
  chain_pending 3 g3 /\
  spawn_chain (3 + fuel) g0 = (4%nat, set_timers [] g3).
Proof.
  intros HW HH g0 g3.
  pose proof (chain_first w h seed HW HH) as H1. fold g0 in H1.
  pose proof (chain_next _ _ H1 ltac:(lia)) as H2.
  pose proof (chain_next _ _ H2 ltac:(lia)) as H3. fold g3 in H3.
  split; [exact H3|].
  unfold spawn_chain. simpl plus.
  destruct H1 as (_ & T1 & _). destruct H2 as (_ & T2 & _).
  pose proof H3 as (_ & T3 & _).
  rewrite (drain_spawn_chain_pending _ _ _ _ T1).
  rewrite (drain_spawn_chain_pending _ _ _ _ T2).
  fold g3. rewrite (drain_spawn_chain_pending _ _ _ _ T3).
  rewrite (chain_last _ H3).
  rewrite drain_spawn_chain_idle by reflexivity. reflexivity.
Qed.

(** C5, as the code has it.  At level 1, on a screen without a negative
    side, a spawn chain started by one [create_enemy()] adds exactly three
    enemies in its first three invocations; the third invocation, which
    adds the third enemy, still queues a fourth, and the fourth adds
    nothing and queues nothing, so the chain ends after four invocations. *)
Theorem spawn_chain_level_1 (w h : Z) (seed : nat -> Z) (fuel : nat) :
  0 <= w -> 0 <= h ->
  let g0 := TurtleAdventureGame_init w h 1 seed in
  let g3 := step (ev_timer 0) (step (ev_timer 0) (step ev_create_enemy g0)) in
  let g4 := step (ev_timer 0) g3 in
  List.length (enemies g3) = 3%nat /\
  timers g3 = [(1000, cb_create_enemy)] /\
  enemies g4 = enemies g3 /\
  timers g4 = [] /\
  spawn_chain (3 + fuel) g0 = (4%nat, g4).
Proof.
  intros HW HH g0 g3 g4.
  destruct (level_1_chain_run w h seed fuel HW HH) as (H3 & Hrun).
  fold g0 g3 in H3, Hrun.
  assert (E4 : g4 = set_timers [] g3) by (apply chain_last; exact H3).
  destruct H3 as (Hn & Ht & _).
  rewrite E4. repeat split; assumption.
Qed.

Lemma spawn_chain_level_1_witness :
  fst (spawn_chain 3 (TurtleAdventureGame_init 800 500 1 (fun _ => 0)))
  = 4%nat.
Proof.
  pose proof (spawn_chain_level_1 800 500 (fun _ => 0) 0
                ltac:(lia) ltac:(lia)) as H.
  cbv zeta in H. destruct H as (_ & _ & _ & _ & H).
  change (3 + 0)%nat with 3%nat in H. rewrite H. reflexivity.
Defined.

(** C5 as stated fails: at level 1, in the state right after the invocation
    that added the third enemy, a fourth [create_enemy()] is queued. *)
Lemma spawn_chain_queues_fourth_call :
  let g0 := TurtleAdventureGame_init 800 500 1 (fun _ => 0) in
  let g3 := step (ev_timer 0) (step (ev_timer 0) (step ev_create_enemy g0)) in
  List.length (enemies g3) = 3%nat /\
  timers g3 = [(1000, cb_create_enemy)] /\
  timers g3 <> [] /\
  fst (spawn_chain 3 g0) = 4%nat.
Proof.
  intros g0 g3.
  destruct (level_1_chain_run 800 500 (fun _ => 0) 0
              ltac:(lia) ltac:(lia)) as ((Hn & Ht & _) & Hrun).
  fold g0 g3 in Hn, Ht, Hrun.
  split; [exact Hn|]. split; [exact Ht|]. split.
  - rewrite Ht. discriminate.
  - simpl plus in Hrun. rewrite Hrun. reflexivity.
Qed.

(** ** Enemies on the move *)

Lemma Enemy_advance_eq self dx dy d dt g e :
  enemies g !! self = Some e ->
  Enemy_advance self dx dy d dt g
  = if decide (d = 0%R) then (Raise ZeroDivisionError, g)
    else
      let e2 := set_position (en_x e + dx / d * dt * en_speed e)%R
                  (en_y e + dy / d * dt * en_speed e)%R e in
      let g2 := set_enemies (<[self := e2]> (enemies g)) g in
      if Enemy_hits_player e2 (player g) then game_over_lose g2
      else (Ok tt, g2).
Proof.
  intros He. pose proof (lookup_lt_Some _ _ _ He) as Hlt.
  unfold Enemy_advance, get_enemy, set_enemy, fdiv.
  rewrite bind_gets, (list_lookup_total_correct _ _ _ He).
  destruct (decide (d = 0%R)) as [Hd|Hd]; [reflexivity|].
  rewrite bind_ret, bind_modify, bind_gets. cbn [enemies set_enemies].
  rewrite list_lookup_total_insert_eq by exact Hlt.
  rewrite bind_ret, bind_modify, bind_gets. cbn [enemies set_enemies].
  rewrite list_insert_insert_eq.
  rewrite list_lookup_total_insert_eq by exact Hlt.
  rewrite bind_gets.
  cbn [set_position en_x en_y en_size en_color en_speed en_strategy
       player set_enemies].
  destruct (Enemy_hits_player _ _); reflexivity.
Qed.

Lemma sqrt_zero_vector : sqrt (0 ^ 2 + 0 ^ 2) = 0%R.
Proof.
  replace (0 ^ 2 + 0 ^ 2)%R with 0%R by ring. apply sqrt_0.
Qed.

(** C1, what the code does.  When a chasing enemy is exactly at the
    player's position, [ChasingEnemy.update] divides by the zero distance:
    it raises [ZeroDivisionError] and leaves the game as it was. *)
Theorem ChasingEnemy_update_coincident_raises
    (g : Game) (self : nat) (e : Enemy) (dt : R) :
  enemies g !! self = Some e ->
  en_x e = plr_x (player g) ->
  en_y e = plr_y (player g) ->
  ChasingEnemy_update self dt g = (Raise ZeroDivisionError, g).
Proof.
  intros He Hx Hy. unfold ChasingEnemy_update, get_enemy.
  rewrite !bind_gets, (list_lookup_total_correct _ _ _ He).
  rewrite (Enemy_advance_eq _ _ _ _ _ _ _ He).
  rewrite Hx, Hy.
  replace (plr_x (player g) - plr_x (player g))%R with 0%R by ring.
  replace (plr_y (player g) - plr_y (player g))%R with 0%R by ring.
  rewrite sqrt_zero_vector.
  destruct (decide (0 = 0)%R) as [_|Hne]; [reflexivity | contradiction].
Qed.

Lemma ChasingEnemy_update_coincident_raises_witness :
  raises (ChasingEnemy_update 0 (1 / 30))
    (set_enemies [mkEnemy 0 0 20 red 150 ChasingEnemy]
       (TurtleAdventureGame_init 800 500 1 (fun _ => 0)))
  = Some ZeroDivisionError.
Proof.
  unfold raises.
  rewrite (ChasingEnemy_update_coincident_raises
             (set_enemies [mkEnemy 0 0 20 red 150 ChasingEnemy]
                (TurtleAdventureGame_init 800 500 1 (fun _ => 0)))
             0 (mkEnemy 0 0 20 red 150 ChasingEnemy) (1 / 30));
    reflexivity.
Defined.

Lemma pure_bind {A B} (m : M A) (f : A -> M B) :
  pure m -> (forall a, pure (f a)) -> pure (bind m f).
Proof.
  intros [[a|e] Hm] Hf.
  - destruct (Hf a) as [res Hres]. exists res. intros g.
    unfold bind. rewrite Hm. apply Hres.
  - exists (Raise e). intros g. unfold bind. rewrite Hm. reflexivity.
Qed.

Lemma pure_tuple_index {A} (t : list A) i : pure (tuple_index t i).
Proof.
  unfold tuple_index.
  destruct (decide _); [destruct (t !! _)|]; eexists; reflexivity.
Qed.

Lemma pure_FencingEnemy_target hm r c : pure (FencingEnemy_target hm r c).
Proof.
  unfold FencingEnemy_target.
  apply pure_bind; [apply pure_tuple_index | intros sx].
  apply pure_bind; [apply pure_tuple_index | intros sy].
  eexists; reflexivity.
Qed.

Lemma enemy_stays_refl self e g :
  enemies g !! self = Some e -> enemy_stays self e g.
Proof. intros He. exists e. auto. Qed.

Lemma Enemy_advance_zero self dx dy d g e :
  enemies g !! self = Some e ->
  enemy_stays self e (exec (Enemy_advance self dx dy d 0) g).
Proof.
  intros He. pose proof (lookup_lt_Some _ _ _ He) as Hlt.
  unfold exec. rewrite (Enemy_advance_eq _ _ _ _ _ _ _ He).
  destruct (decide (d = 0%R)); [apply enemy_stays_refl, He|].
  cbv zeta.
  eexists. split.
  - destruct (Enemy_hits_player _ _); simpl;
      apply list_lookup_insert_eq, Hlt.
  - simpl. split; ring.
Qed.

Lemma sum_squares_not_below_zero (a b s : R) : ~ (a ^ 2 + b ^ 2 < 0 * s ^ 2)%R.
Proof. intros Hlt. nra. Qed.

Lemma RandomWalkEnemy_update_zero depth self g e :
  enemies g !! self = Some e ->
  enemy_stays self e (exec (RandomWalkEnemy_update depth self 0) g).
Proof.
  intros He. destruct depth as [|depth]; simpl.
  - apply enemy_stays_refl, He.
  - unfold exec, get_enemy.
    rewrite bind_gets, (list_lookup_total_correct _ _ _ He).
    destruct (en_strategy e) as [tarx tary| | |];
      try (apply enemy_stays_refl, He).
    destruct (decide _) as [Hlt|_].
    + destruct (sum_squares_not_below_zero _ _ _ Hlt).
    + apply Enemy_advance_zero, He.
Qed.

Lemma ChasingEnemy_update_zero self g e :
  enemies g !! self = Some e ->
  enemy_stays self e (exec (ChasingEnemy_update self 0) g).
Proof.
  intros He. unfold exec, ChasingEnemy_update, get_enemy.
  rewrite !bind_gets, (list_lookup_total_correct _ _ _ He).
  apply Enemy_advance_zero, He.
Qed.

Lemma FencingEnemy_update_zero depth self g e :
  enemies g !! self = Some e ->
  enemy_stays self e (exec (FencingEnemy_update depth self 0) g).
Proof.
  intros He. destruct depth as [|depth]; simpl.
  - apply enemy_stays_refl, He.
  - unfold exec, get_enemy.
    rewrite bind_gets, (list_lookup_total_correct _ _ _ He).
    destruct (en_strategy e) as [| |c dir r|];
      try (apply enemy_stays_refl, He).
    rewrite bind_gets.
    destruct (pure_FencingEnemy_target (home g) r c) as [[tar|ex] Htar];
      unfold bind at 1; rewrite Htar.
    + destruct (decide _) as [Hlt|_].
      * destruct (sum_squares_not_below_zero _ _ _ Hlt).
      * apply Enemy_advance_zero, He.
    + apply enemy_stays_refl, He.
Qed.

Lemma Enemy_update_zero depth self g e :
  enemies g !! self = Some e ->
  enemy_stays self e (exec (Enemy_update depth self 0) g).
Proof.
  intros He. unfold exec, Enemy_update, get_enemy.
  rewrite bind_gets, (list_lookup_total_correct _ _ _ He).
  destruct (en_strategy e).
  - apply RandomWalkEnemy_update_zero, He.
  - apply ChasingEnemy_update_zero, He.
  - apply FencingEnemy_update_zero, He.
  - apply enemy_stays_refl, He.
Qed.

Lemma game_over_win_eq g : game_over_win g = (Ok tt, won g).
Proof. reflexivity. Qed.

Lemma Player_update_eq dt g :
  exec (Player_update dt) g
  = let g1 :=
      if Home_contains (home g) (plr_x (player g)) (plr_y (player g))
      then won g else g in
    if is_active (waypoint g) then
      let g2 := set_player (set_turtle (Player_moved dt g) (player g)) g1 in
      if decide (Turtle_distance (Player_moved dt g)
                   (wp_x (waypoint g)) (wp_y (waypoint g))
                 <= plr_speed (player g) * dt)%R
      then exec Waypoint_deactivate g2
      else g2
    else g1.
Proof.
  unfold exec, Player_update. rewrite !bind_gets.
  destruct (Home_contains _ _ _); cbv zeta.
  - unfold bind at 1. rewrite game_over_win_eq, bind_gets.
    change (waypoint (won g)) with (waypoint g).
    destruct (is_active (waypoint g)); [|reflexivity].
    rewrite bind_modify. fold (Player_moved dt g).
    destruct (decide _); reflexivity.
  - rewrite bind_ret, bind_gets.
    destruct (is_active (waypoint g)); [|reflexivity].
    rewrite bind_modify. fold (Player_moved dt g).
    destruct (decide _); reflexivity.
Qed.

Lemma Player_moved_zero g :
  xcor (Player_moved 0 g) = plr_x (player g) /\
  ycor (Player_moved 0 g) = plr_y (player g).
Proof. unfold Player_moved, plr_x, plr_y. simpl. split; ring. Qed.

Lemma Player_update_zero g :
  plr_x (player (exec (Player_update 0) g)) = plr_x (player g) /\
  plr_y (player (exec (Player_update 0) g)) = plr_y (player g).
Proof.
  rewrite Player_update_eq. cbv zeta.
  destruct (Player_moved_zero g) as (Hx & Hy).
  destruct (Home_contains _ _ _), (is_active (waypoint g));
    try destruct (decide _); simpl; auto.
Qed.

(** C6.  With a time delta of zero, no [update] moves its element, in any
    state: the waypoint and the home stay as they are, the player keeps
    its position, and so does every enemy of every class, whether its
    [update] returns or raises. *)
Theorem update_zero_keeps_position (g : Game) (depth self : nat) :
  waypoint (exec (Waypoint_update 0) g) = waypoint g /\
  home (exec (Home_update 0) g) = home g /\
  plr_x (player (exec (Player_update 0) g)) = plr_x (player g) /\
  plr_y (player (exec (Player_update 0) g)) = plr_y (player g) /\
  (forall e : Enemy,
     enemies g !! self = Some e ->
     enemy_stays self e (exec (RandomWalkEnemy_update depth self 0) g) /\
     enemy_stays self e (exec (ChasingEnemy_update self 0) g) /\
     enemy_stays self e (exec (FencingEnemy_update depth self 0) g) /\
     enemy_stays self e (exec (DemoEnemy_update self 0) g) /\
     enemy_stays self e (exec (Enemy_update depth self 0) g)).
Proof.
  destruct (Player_update_zero g) as (Hx & Hy).
  split; [reflexivity|]. split; [reflexivity|].
  split; [exact Hx|]. split; [exact Hy|].
  intros e He.
  split; [apply RandomWalkEnemy_update_zero, He|].
  split; [apply ChasingEnemy_update_zero, He|].
  split; [apply FencingEnemy_update_zero, He|].
  split; [apply enemy_stays_refl, He|].
  apply Enemy_update_zero, He.
Qed.

Lemma update_zero_keeps_position_witness :
  plr_x (player (exec (Player_update 0)
                   (TurtleAdventureGame_init 800 500 1 (fun _ => 0))))
  = plr_x (player (TurtleAdventureGame_init 800 500 1 (fun _ => 0))) /\
  enemy_stays 0 (mkEnemy 10 20 20 red 150 ChasingEnemy)
    (exec (Enemy_update 5 0 0)
       (set_enemies [mkEnemy 10 20 20 red 150 ChasingEnemy]
          (TurtleAdventureGame_init 800 500 1 (fun _ => 0)))).
Proof.
  split.
  - apply (update_zero_keeps_position
             (TurtleAdventureGame_init 800 500 1 (fun _ => 0)) 0 0).
  - destruct (update_zero_keeps_position
                (set_enemies [mkEnemy 10 20 20 red 150 ChasingEnemy]
                   (TurtleAdventureGame_init 800 500 1 (fun _ => 0)))
                5 0) as (_ & _ & _ & _ & Henemy).
    apply (Henemy (mkEnemy 10 20 20 red 150 ChasingEnemy)).
    reflexivity.
Defined.

(** ** The turtle on its way to the waypoint *)

Section Travel.
Variables (t : Turtle) (wx wy delta : R).

Local Abbreviation p := (Turtle_distance t wx wy).
Local Abbreviation t' :=
  (Turtle_forward delta (Turtle_setheading (Turtle_towards t wx wy) t)).


Lemma Turtle_distance_sqr :
  (p * p = (wx - xcor t) ^ 2 + (wy - ycor t) ^ 2)%R.
Proof.
  apply sqrt_sqrt. apply Rplus_le_le_0_compat; apply pow2_ge_0.
Qed.



(** The move is [|delta|] long. *)
Lemma Turtle_move_length :
  Turtle_distance t' (xcor t) (ycor t) = Rabs delta.
Proof.
  rewrite <- sqrt_Rsqr_abs, Rsqr_pow2.
  unfold Turtle_distance at 1. f_equal.
  pose proof Turtle_distance_sqr as Hs.
  unfold Turtle_towards.
  destruct (decide (p = 0%R)) as [Hp|Hp]; simpl.
  - ring.
  - transitivity (((wx - xcor t) ^ 2 + (wy - ycor t) ^ 2)
                  * (delta / p) ^ 2)%R; [field; exact Hp|].
    rewrite <- Hs. field. exact Hp.
Qed.

End Travel.

(** ** The player *)

Lemma Player_update_active dt g :
  is_active (waypoint g) = true ->
  let g' := exec (Player_update dt) g in
  player g' = set_turtle (Player_moved dt g) (player g) /\
  wp_x (waypoint g') = wp_x (waypoint g) /\
  wp_y (waypoint g') = wp_y (waypoint g) /\
  is_active (waypoint g')
  = negb (bool_decide
            (Turtle_distance (Player_moved dt g)
               (wp_x (waypoint g)) (wp_y (waypoint g))
             <= plr_speed (player g) * dt)%R).
Proof.
  intros Hact. cbv zeta. rewrite Player_update_eq, Hact. cbv zeta.
  destruct (decide _) as [Hle|Hgt].
  - rewrite (bool_decide_eq_true_2 _ Hle).
    destruct (Home_contains _ _ _); simpl; auto.
  - rewrite (bool_decide_eq_false_2 _ Hgt).
    destruct (Home_contains _ _ _); simpl; auto.
Qed.

Lemma Player_update_inactive dt g :
  is_active (waypoint g) = false ->
  player (exec (Player_update dt) g) = player g /\
  waypoint (exec (Player_update dt) g) = waypoint g.
Proof.
  intros Hact. rewrite Player_update_eq, Hact. cbv zeta.
  destruct (Home_contains _ _ _); simpl; auto.
Qed.

Lemma Player_update_win dt g :
  Home_contains (home g) (plr_x (player g)) (plr_y (player g)) = true ->
  let g' := exec (Player_update dt) g in
  running g' = false /\
  texts g' = texts g ++ [(next_id g, "You Win"%string)] /\
  timers g' = timers g ++ [(2000, cb_win_clear (next_id g))].
Proof.
  intros Hin. cbv zeta. rewrite Player_update_eq, Hin. cbv zeta.
  destruct (is_active (waypoint g)); [destruct (decide _)|]; simpl; auto.
Qed.







(** Bounds of the home of an 800 by 500 screen. *)
Ltac home_800_500 :=
  apply Home_contains_iff; simpl;
  change (800 - 100) with 700; change (500 / 2) with 250;
  unfold plr_x, plr_y; simpl; lra.

(** C3, as the code has it.  When the home contains the player at entry,
    [Player.update] signals the win: the loop is halted, "You Win" is
    shown and the delayed call to the next level is queued.  It does not
    return there: with the waypoint inactive the player stays where it is,
    with the waypoint active the player still turns to it and goes forward
    by [speed * dt] in the same call. *)
Theorem Player_update_at_home (g : Game) (dt : R) :
  Home_contains (home g) (plr_x (player g)) (plr_y (player g)) = true ->
  let g' := exec (Player_update dt) g in
  running g' = false /\
  texts g' = texts g ++ [(next_id g, "You Win"%string)] /\
  timers g' = timers g ++ [(2000, cb_win_clear (next_id g))] /\
  (is_active (waypoint g) = false -> player g' = player g) /\
  (is_active (waypoint g) = true ->
   player g' = set_turtle (Player_moved dt g) (player g) /\
   Turtle_distance (plr_turtle (player g'))
     (plr_x (player g)) (plr_y (player g))
   = Rabs (plr_speed (player g) * dt)).
Proof.
  intros Hin g'.
  destruct (Player_update_win dt g Hin) as (Hrun & Htxt & Htim).
  fold g' in Hrun, Htxt, Htim.
  split; [exact Hrun|]. split; [exact Htxt|]. split; [exact Htim|].
  split.
  - intros Hact. apply (Player_update_inactive dt g Hact).
  - intros Hact.
    destruct (Player_update_active dt g Hact) as (Hp & _).
    fold g' in Hp. split; [exact Hp|].
    rewrite Hp. unfold Player_moved, plr_x, plr_y.
    apply Turtle_move_length.
Qed.

Lemma Player_update_at_home_witness :
  running
    (exec (Player_update 1)
       (set_player (mkPlayer (mkTurtle 700 250 1 0) 180)
          (TurtleAdventureGame_init 800 500 1 (fun _ => 0))))
  = false.
Proof.
  apply (Player_update_at_home
           (set_player (mkPlayer (mkTurtle 700 250 1 0) 180)
              (TurtleAdventureGame_init 800 500 1 (fun _ => 0))) 1).
  home_800_500.
Defined.

(** C3 as stated fails: a player inside the home whose waypoint is active
    is moved by the very call that signals the win. *)
Lemma player_moves_after_win :
  let g := set_waypoint (mkWaypoint 0 250 true)
             (set_player (mkPlayer (mkTurtle 700 250 1 0) 180)
                (TurtleAdventureGame_init 800 500 1 (fun _ => 0))) in
  let g' := exec (Player_update 1) g in
  Home_contains (home g) (plr_x (player g)) (plr_y (player g)) = true /\
  ~ (plr_x (player g') = plr_x (player g) /\
     plr_y (player g') = plr_y (player g)).
Proof.
  intros g g'. split.
  - home_800_500.
  - intros (Hx & Hy).
    destruct (Player_update_active 1 g eq_refl) as (Hp & _). fold g' in Hp.
    pose proof (Turtle_move_length (plr_turtle (player g))
                  (wp_x (waypoint g)) (wp_y (waypoint g))
                  (plr_speed (player g) * 1)) as Hlen.
    fold (Player_moved 1 g) in Hlen.
    unfold plr_x, plr_y in Hx, Hy. rewrite Hp in Hx, Hy.
    cbn [plr_turtle set_turtle] in Hx, Hy.
    unfold Turtle_distance in Hlen. rewrite Hx, Hy in Hlen.
    replace ((xcor (plr_turtle (player g)) - xcor (plr_turtle (player g))) ^ 2
             + (ycor (plr_turtle (player g)) - ycor (plr_turtle (player g))) ^ 2)%R
      with 0%R in Hlen by ring.
    rewrite sqrt_0 in Hlen.
    change (plr_speed (player g)) with 180%R in Hlen.
    rewrite Rabs_right in Hlen; lra.
Qed.

(** ** The fencing enemy *)

Lemma FencingEnemy_target_eq hm r c sx sy g :
  tuple_index [-1; 1; 1; -1] c g = (Ok sx, g) ->
  tuple_index [-1; 1] (c / 2) g = (Ok sy, g) ->
  forall tx ty : R,
  (tx = home_x hm + IZR r * IZR sx)%R ->
  (ty = home_y hm + IZR r * IZR sy)%R ->
  FencingEnemy_target hm r c g = (Ok (tx, ty), g).
Proof.
  intros Hx Hy tx ty -> ->. unfold FencingEnemy_target.
  unfold bind at 1. rewrite Hx. unfold bind at 1. rewrite Hy.
  rewrite !mult_IZR. reflexivity.
Qed.

Lemma FencingEnemy_target_corners hm r g :
  FencingEnemy_target hm r 0 g
  = (Ok ((home_x hm - IZR r)%R, (home_y hm - IZR r)%R), g) /\
  FencingEnemy_target hm r 1 g
  = (Ok ((home_x hm + IZR r)%R, (home_y hm - IZR r)%R), g) /\
  FencingEnemy_target hm r 2 g
  = (Ok ((home_x hm + IZR r)%R, (home_y hm + IZR r)%R), g) /\
  FencingEnemy_target hm r 3 g
  = (Ok ((home_x hm - IZR r)%R, (home_y hm + IZR r)%R), g).
Proof.
  repeat split;
    (eapply FencingEnemy_target_eq; [reflexivity | reflexivity | lra | lra]).
Qed.

Lemma FencingEnemy_update_arrival depth self dt g e c dir r tx ty :
  enemies g !! self = Some e ->
  en_strategy e = FencingEnemy c dir r ->
  FencingEnemy_target (home g) r c g = (Ok (tx, ty), g) ->
  ((tx - en_x e) ^ 2 + (ty - en_y e) ^ 2 < dt * en_speed e ^ 2)%R ->
  FencingEnemy_update (S depth) self dt g
  = FencingEnemy_update depth self dt
      (set_enemies
         (<[self := set_strategy
                      (FencingEnemy ((c + (if dir then -1 else 1)) mod 4)
                         dir r) e]> (enemies g)) g).
Proof.
  intros He Hs Htar Hnear. simpl. unfold get_enemy at 1.
  rewrite bind_gets, (list_lookup_total_correct _ _ _ He), Hs.
  rewrite bind_gets. unfold bind at 1. rewrite Htar. cbn [fst snd].
  destruct (decide _) as [_|Hfar]; [|contradiction].
  destruct dir; reflexivity.
Qed.

(** * Further properties *)

(** ** One move of an enemy *)

Lemma game_over_lose_eq g : game_over_lose g = (Ok tt, lost g).
Proof. reflexivity. Qed.

Lemma Enemy_advance_towards self tx ty dt g e :
  enemies g !! self = Some e ->
  Enemy_advance self (tx - en_x e) (ty - en_y e) (Enemy_distance e tx ty) dt g
  = if decide (Enemy_distance e tx ty = 0%R)
    then (Raise ZeroDivisionError, g)
    else
      let e' := Enemy_moved e tx ty dt in
      let g' := set_enemies (<[self := e']> (enemies g)) g in
      (Ok tt, if Enemy_hits_player e' (player g) then lost g' else g').
Proof.
  intros He. rewrite (Enemy_advance_eq _ _ _ _ _ _ _ He).
  destruct (decide _); [reflexivity|]. cbv zeta.
  fold (Enemy_moved e tx ty dt).
  destruct (Enemy_hits_player _ _); reflexivity.
Qed.

Lemma Enemy_distance_zero e tx ty :
  Enemy_distance e tx ty = 0%R <-> en_x e = tx /\ en_y e = ty.
Proof.
  unfold Enemy_distance. split.
  - intros Hd.
    assert (Hs : ((tx - en_x e) ^ 2 + (ty - en_y e) ^ 2 = 0)%R).
    { apply sqrt_eq_0; [|exact Hd].
      apply Rplus_le_le_0_compat; apply pow2_ge_0. }
    destruct (Rplus_sqr_eq_0 (tx - en_x e) (ty - en_y e)) as (Hx & Hy).
    + rewrite !Rsqr_pow2. exact Hs.
    + split; lra.
  - intros (Hx & Hy). rewrite Hx, Hy.
    replace ((tx - tx) ^ 2 + (ty - ty) ^ 2)%R with 0%R by ring.
    apply sqrt_0.
Qed.

Lemma Enemy_distance_sqr e tx ty :
  (Enemy_distance e tx ty * Enemy_distance e tx ty
   = (tx - en_x e) ^ 2 + (ty - en_y e) ^ 2)%R.
Proof.
  apply sqrt_sqrt. apply Rplus_le_le_0_compat; apply pow2_ge_0.
Qed.

(** A move is [|delta_time * speed|] long and leaves the enemy
    [|dist - delta_time * speed|] away from its target. *)
Lemma Enemy_moved_distances e tx ty dt :
  Enemy_distance e tx ty <> 0%R ->
  Enemy_distance (Enemy_moved e tx ty dt) tx ty
  = Rabs (Enemy_distance e tx ty - dt * en_speed e) /\
  Enemy_distance (Enemy_moved e tx ty dt) (en_x e) (en_y e)
  = Rabs (dt * en_speed e).
Proof.
  intros Hd. pose proof (Enemy_distance_sqr e tx ty) as Hs.
  unfold Enemy_moved. set (d := Enemy_distance e tx ty) in *.
  unfold Enemy_distance. cbn [set_position en_x en_y].
  split; rewrite <- sqrt_Rsqr_abs, Rsqr_pow2; f_equal.
  - transitivity (((tx - en_x e) ^ 2 + (ty - en_y e) ^ 2)
                  * ((d - dt * en_speed e) / d) ^ 2)%R; [field; exact Hd|].
    rewrite <- Hs. field. exact Hd.
  - transitivity (((tx - en_x e) ^ 2 + (ty - en_y e) ^ 2)
                  * (dt * en_speed e / d) ^ 2)%R; [field; exact Hd|].
    rewrite <- Hs. field. exact Hd.
Qed.

Lemma ChasingEnemy_update_eq self dt g e :
  enemies g !! self = Some e ->
  ChasingEnemy_update self dt g
  = if decide (Enemy_distance e (plr_x (player g)) (plr_y (player g)) = 0%R)
    then (Raise ZeroDivisionError, g)
    else
      let e' := Enemy_moved e (plr_x (player g)) (plr_y (player g)) dt in
      let g' := set_enemies (<[self := e']> (enemies g)) g in
      (Ok tt, if Enemy_hits_player e' (player g) then lost g' else g').
Proof.
  intros He. unfold ChasingEnemy_update, get_enemy.
  rewrite !bind_gets, (list_lookup_total_correct _ _ _ He).
  apply (Enemy_advance_towards _ _ _ _ _ _ He).
Qed.

(** X2.  A chasing enemy that is not on the player moves straight at the
    player: the move is [|dt * speed|] long, it leaves the enemy
    [|dist - dt * speed|] away from the player, and it changes no other
    enemy, nor the player, nor the enemy's size, colour, speed or class. *)
Theorem ChasingEnemy_update_moves_at_player
    (g : Game) (self : nat) (e : Enemy) (dt : R) :
  enemies g !! self = Some e ->
  ~ (en_x e = plr_x (player g) /\ en_y e = plr_y (player g)) ->
  let px := plr_x (player g) in
  let py := plr_y (player g) in
  let g' := exec (ChasingEnemy_update self dt) g in
  exists e',
    enemies g' = <[self := e']> (enemies g) /\
    player g' = player g /\
    Enemy_distance e' (en_x e) (en_y e) = Rabs (dt * en_speed e) /\
    Enemy_distance e' px py
    = Rabs (Enemy_distance e px py - dt * en_speed e) /\
    en_size e' = en_size e /\ en_color e' = en_color e /\
    en_speed e' = en_speed e /\ en_strategy e' = en_strategy e.
Proof.
  intros He Hne px py g'.
  assert (Hd : Enemy_distance e px py <> 0%R).
  { intros Hd. apply Hne, Enemy_distance_zero, Hd. }
  destruct (Enemy_moved_distances e px py dt Hd) as (Hto & Hfrom).
  exists (Enemy_moved e px py dt).
  unfold g', exec. rewrite (ChasingEnemy_update_eq _ _ _ _ He).
  fold px py. destruct (decide _) as [H0|_]; [contradiction|].
  cbv zeta. cbn [snd].
  split; [destruct (Enemy_hits_player _ _); reflexivity|].
  split; [destruct (Enemy_hits_player _ _); reflexivity|].
  split; [exact Hfrom|]. split; [exact Hto|].
  repeat split.
Qed.

Lemma ChasingEnemy_update_moves_at_player_witness :
  exists e',
    enemies
      (exec (ChasingEnemy_update 0 (1 / 30))
         (set_enemies [mkEnemy 0 10 20 red 150 ChasingEnemy]
            (TurtleAdventureGame_init 800 500 1 (fun _ => 0))))
    = [e'] /\
    Enemy_distance e' 0 10 = Rabs (1 / 30 * 150).
Proof.
  destruct (ChasingEnemy_update_moves_at_player
              (set_enemies [mkEnemy 0 10 20 red 150 ChasingEnemy]
                 (TurtleAdventureGame_init 800 500 1 (fun _ => 0)))
              0 (mkEnemy 0 10 20 red 150 ChasingEnemy) (1 / 30))
    as (e' & Hen & _ & Hlen & _).
  - reflexivity.
  - unfold plr_x, plr_y. simpl. lra.
  - exists e'. split; [exact Hen | exact Hlen].
Defined.

(** X3.  A chasing enemy that is not on the player signals the loss
    exactly when it hits the player after its move: then the loop is halted
    and "You Lose" is shown; otherwise the loop and the canvas are as they
    were.  No delayed call is queued either way. *)
Theorem ChasingEnemy_update_signals_loss
    (g : Game) (self : nat) (e : Enemy) (dt : R) :
  enemies g !! self = Some e ->
  ~ (en_x e = plr_x (player g) /\ en_y e = plr_y (player g)) ->
  let e' := Enemy_moved e (plr_x (player g)) (plr_y (player g)) dt in
  let g' := exec (ChasingEnemy_update self dt) g in
  timers g' = timers g /\
  (Enemy_hits_player e' (player g) = true ->
   running g' = false /\
   texts g' = texts g ++ [(next_id g, "You Lose"%string)]) /\
  (Enemy_hits_player e' (player g) = false ->
   running g' = running g /\ texts g' = texts g).
Proof.
  intros He Hne e' g'.
  assert (Hd : Enemy_distance e (plr_x (player g)) (plr_y (player g))
               <> 0%R).
  { intros Hd. apply Hne, Enemy_distance_zero, Hd. }
  unfold g', exec. rewrite (ChasingEnemy_update_eq _ _ _ _ He).
  destruct (decide _) as [H0|_]; [contradiction|].
  cbv zeta. cbn [snd]. fold e'.
  destruct (Enemy_hits_player e' (player g)); simpl.
  - split; [reflexivity|]. split; [auto | discriminate].
  - split; [reflexivity|]. split; [discriminate | auto].
Qed.

Lemma ChasingEnemy_update_signals_loss_witness :
  timers
    (exec (ChasingEnemy_update 0 (1 / 30))
       (set_enemies [mkEnemy 0 10 20 red 150 ChasingEnemy]
          (TurtleAdventureGame_init 800 500 1 (fun _ => 0))))
  = [].
Proof.
  apply (ChasingEnemy_update_signals_loss
           (set_enemies [mkEnemy 0 10 20 red 150 ChasingEnemy]
              (TurtleAdventureGame_init 800 500 1 (fun _ => 0)))
           0 (mkEnemy 0 10 20 red 150 ChasingEnemy) (1 / 30)).
  - reflexivity.
  - unfold plr_x, plr_y. simpl. lra.
Defined.

(** ** What the update of an enemy leaves alone *)

Lemma evolves_refl w h e : evolves w h e e.
Proof.
  unfold evolves. repeat split.
  destruct (en_strategy e); auto.
Qed.

Lemma evolves_trans w h e1 e2 e3 :
  evolves w h e1 e2 -> evolves w h e2 e3 -> evolves w h e1 e3.
Proof.
  unfold evolves. intros (Hs & Hc & Hv & H12) (Hs' & Hc' & Hv' & H23).
  split; [congruence|]. split; [congruence|]. split; [congruence|].
  destruct (en_strategy e1), (en_strategy e2), (en_strategy e3);
    try contradiction; auto.
  - destruct H23 as [(-> & ->)|H23]; [exact H12 | right; exact H23].
  - destruct H12 as (-> & -> & H12), H23 as (-> & -> & H23).
    split; [reflexivity|]. split; [reflexivity|].
    destruct H23 as [->|H23]; [exact H12 | right; exact H23].
Qed.

Lemma enemy_updated_refl self e g :
  enemies g !! self = Some e -> enemy_updated self e g g.
Proof.
  intros He. exists e. split; [|apply evolves_refl].
  unfold only_enemy_changed. rewrite list_insert_id by exact He.
  repeat split.
Qed.

Lemma enemy_updated_trans self e e1 g g1 g2 :
  only_enemy_changed self e1 g g1 ->
  evolves (screen_width g) (screen_height g) e e1 ->
  enemy_updated self e1 g1 g2 ->
  enemy_updated self e g g2.
Proof.
  intros H1 Hev (e2 & H2 & Hev2).
  unfold only_enemy_changed in *.
  destruct H1 as (En1 & P1 & W1 & Ho1 & L1 & G1 & SW1 & SH1 & T1).
  destruct H2 as (En2 & P2 & W2 & Ho2 & L2 & G2 & SW2 & SH2 & T2).
  exists e2. split.
  - unfold only_enemy_changed.
    rewrite En2, En1, list_insert_insert_eq.
    repeat split; congruence.
  - rewrite SW1, SH1 in Hev2. eapply evolves_trans; eassumption.
Qed.

Lemma bind_randint {B} (a b : Z) (f : Z -> M B) (g : Game)
    (Q : result B * Game -> Prop) :
  (b < a -> Q (Raise ValueError, g)) ->
  (forall v, a <= v <= b ->
             Q (f v (set_rng (fun n => rng g (S n)) g))) ->
  Q (bind (randint a b) f g).
Proof.
  intros Hraise Hok. unfold randint.
  destruct (decide (b < a)) as [Hlt|Hge].
  - apply Hraise, Hlt.
  - apply Hok.
    pose proof (Z.mod_pos_bound (rng g 0%nat) (b - a + 1) ltac:(lia)). lia.
Qed.

Lemma Enemy_advance_updated self tx ty dt g e :
  enemies g !! self = Some e ->
  enemy_updated self e g
    (exec (Enemy_advance self (tx - en_x e) (ty - en_y e)
             (Enemy_distance e tx ty) dt) g).
Proof.
  intros He. unfold exec. rewrite (Enemy_advance_towards _ _ _ _ _ _ He).
  destruct (decide _); [apply enemy_updated_refl, He|].
  cbv zeta. cbn [snd].
  exists (Enemy_moved e tx ty dt). split.
  - destruct (Enemy_hits_player _ _); repeat split.
  - unfold evolves, Enemy_moved. cbn. repeat split.
    destruct (en_strategy e); auto.
Qed.

Lemma RandomWalkEnemy_update_updated depth self dt g e :
  enemies g !! self = Some e ->
  enemy_updated self e g (exec (RandomWalkEnemy_update depth self dt) g).
Proof.
  revert g e. induction depth as [|depth IH]; intros g e He.
  - apply enemy_updated_refl, He.
  - pose proof (lookup_lt_Some _ _ _ He) as Hlt.
    unfold exec. simpl. unfold get_enemy at 1.
    rewrite bind_gets, (list_lookup_total_correct _ _ _ He).
    destruct (en_strategy e) as [tarx tary| | |] eqn:Es;
      try (apply enemy_updated_refl, He).
    destruct (decide _) as [_|_].
    + rewrite bind_gets.
      apply bind_randint; [intros _; apply enemy_updated_refl, He|].
      intros tx Htx. rewrite bind_gets.
      apply bind_randint; [intros _|].
      { exists e. split; [|apply evolves_refl].
        unfold only_enemy_changed; simpl.
        rewrite list_insert_id by exact He. repeat split. }
      intros ty Hty. unfold set_enemy. rewrite bind_modify.
      eapply enemy_updated_trans; [| |apply IH].
      * unfold only_enemy_changed; simpl. repeat split.
      * unfold evolves; simpl. rewrite Es. repeat split.
        right. exists tx, ty. auto.
      * simpl. apply list_lookup_insert_eq, Hlt.
    + apply (Enemy_advance_updated self tarx tary dt g e He).
Qed.

Lemma ChasingEnemy_update_updated self dt g e :
  enemies g !! self = Some e ->
  enemy_updated self e g (exec (ChasingEnemy_update self dt) g).
Proof.
  intros He. unfold exec, ChasingEnemy_update, get_enemy.
  rewrite !bind_gets, (list_lookup_total_correct _ _ _ He).
  apply (Enemy_advance_updated self _ _ dt g e He).
Qed.

Lemma FencingEnemy_update_updated depth self dt g e :
  enemies g !! self = Some e ->
  enemy_updated self e g (exec (FencingEnemy_update depth self dt) g).
Proof.
  revert g e. induction depth as [|depth IH]; intros g e He.
  - apply enemy_updated_refl, He.
  - pose proof (lookup_lt_Some _ _ _ He) as Hlt.
    unfold exec. simpl. unfold get_enemy at 1.
    rewrite bind_gets, (list_lookup_total_correct _ _ _ He).
    destruct (en_strategy e) as [| |c dir r|] eqn:Es;
      try (apply enemy_updated_refl, He).
    rewrite bind_gets.
    destruct (pure_FencingEnemy_target (home g) r c) as [[[tx ty]|ex] Htar];
      unfold bind at 1; rewrite Htar; [|apply enemy_updated_refl, He].
    cbn [fst snd].
    destruct (decide _) as [_|_].
    + destruct (pure_tuple_index [1; -1] (if dir then 1 else 0))
        as [[turn|ex] Hturn];
        unfold bind at 1; rewrite Hturn; [|apply enemy_updated_refl, He].
      unfold set_enemy. rewrite bind_modify.
      eapply enemy_updated_trans; [| |apply IH].
      * unfold only_enemy_changed; simpl. repeat split.
      * unfold evolves; simpl. rewrite Es.
        split; [reflexivity|]. split; [reflexivity|].
        split; [reflexivity|]. split; [reflexivity|].
        split; [reflexivity|]. right.
        pose proof (Z.mod_pos_bound (c + turn) 4 ltac:(lia)). lia.
      * simpl. apply list_lookup_insert_eq, Hlt.
    + apply (Enemy_advance_updated self tx ty dt g e He).
Qed.

Lemma Enemy_update_updated depth self dt g e :
  enemies g !! self = Some e ->
  enemy_updated self e g (exec (Enemy_update depth self dt) g).
Proof.
  intros He. unfold exec, Enemy_update, get_enemy.
  rewrite bind_gets, (list_lookup_total_correct _ _ _ He).
  destruct (en_strategy e).
  - apply RandomWalkEnemy_update_updated, He.
  - apply ChasingEnemy_update_updated, He.
  - apply FencingEnemy_update_updated, He.
  - apply enemy_updated_refl, He.
Qed.

(** X4.  The update of an enemy, whatever its class and whether it returns
    or raises, changes of the game only that enemy, the random generator,
    the loop flag and the canvas: the other enemies, the player, the
    waypoint, the home, the level and the delayed calls stay.  The enemy
    keeps its size, colour, speed and class; a fencing enemy keeps its
    direction and radius and its corner, if it changes, is an index of
    0..3; the target of a random walk, if it changes, is a point of the
    screen. *)
Theorem Enemy_update_changes_only_self
    (g : Game) (depth self : nat) (e : Enemy) (dt : R) :
  enemies g !! self = Some e ->
  let g' := exec (Enemy_update depth self dt) g in
  exists e',
    only_enemy_changed self e' g g' /\
    evolves (screen_width g) (screen_height g) e e' /\
    (forall j, j <> self -> enemies g' !! j = enemies g !! j).
Proof.
  intros He g'.
  destruct (Enemy_update_updated depth self dt g e He) as (e' & Hch & Hev).
  fold g' in Hch.
  exists e'. split; [exact Hch|]. split; [exact Hev|].
  intros j Hj. destruct Hch as (-> & _).
  apply list_lookup_insert_ne. auto.
Qed.

Lemma Enemy_update_changes_only_self_witness :
  let g := set_enemies [mkEnemy 0 10 20 red 150 ChasingEnemy;
                        mkEnemy 5 5 15 blue 160 (FencingEnemy 2 true 70)]
             (TurtleAdventureGame_init 800 500 1 (fun _ => 0)) in
  enemies (exec (Enemy_update 8 1 (1 / 30)) g) !! 0%nat
  = Some (mkEnemy 0 10 20 red 150 ChasingEnemy).
Proof.
  intros g.
  destruct (Enemy_update_changes_only_self g 8 1
              (mkEnemy 5 5 15 blue 160 (FencingEnemy 2 true 70)) (1 / 30))
    as (e' & _ & _ & Hother); [reflexivity|].
  rewrite (Hother 0%nat); [reflexivity | discriminate].
Defined.

(** ** Faults of the walking and the fencing enemy *)

Lemma Enemy_advance_no_division_fault self tx ty dt g e :
  enemies g !! self = Some e ->
  (0 < dt * en_speed e ^ 2)%R ->
  ~ ((tx - en_x e) ^ 2 + (ty - en_y e) ^ 2 < dt * en_speed e ^ 2)%R ->
  no_division_fault
    (Enemy_advance self (tx - en_x e) (ty - en_y e)
       (Enemy_distance e tx ty) dt g).
Proof.
  intros He Hpos Hfar. rewrite (Enemy_advance_towards _ _ _ _ _ _ He).
  destruct (decide _) as [Hd|_]; [|discriminate].
  pose proof (Enemy_distance_sqr e tx ty) as Hs. rewrite Hd in Hs. lra.
Qed.

Lemma RandomWalkEnemy_update_no_division_fault depth self dt g e :
  enemies g !! self = Some e ->
  (0 < dt * en_speed e ^ 2)%R ->
  no_division_fault (RandomWalkEnemy_update depth self dt g).
Proof.
  revert g e. induction depth as [|depth IH]; intros g e He Hpos.
  - discriminate.
  - pose proof (lookup_lt_Some _ _ _ He) as Hlt.
    simpl. unfold get_enemy at 1.
    rewrite bind_gets, (list_lookup_total_correct _ _ _ He).
    destruct (en_strategy e) as [tarx tary| | |] eqn:Es; try discriminate.
    destruct (decide _) as [_|Hfar].
    + rewrite bind_gets. apply bind_randint; [discriminate|].
      intros tx _. rewrite bind_gets. apply bind_randint; [discriminate|].
      intros ty _. unfold set_enemy. rewrite bind_modify.
      apply (IH _ (set_strategy (RandomWalkEnemy (IZR tx) (IZR ty)) e)).
      * simpl. apply list_lookup_insert_eq, Hlt.
      * exact Hpos.
    + apply (Enemy_advance_no_division_fault self tarx tary dt g e);
        assumption.
Qed.

Lemma bind_Ok {A B} (m : M A) (f : A -> M B) g a g1 :
  m g = (Ok a, g1) -> bind m f g = f a g1.
Proof. intros Hm. unfold bind. rewrite Hm. reflexivity. Qed.

Lemma bind_Raise {A B} (m : M A) (f : A -> M B) g ex g1 :
  m g = (Raise ex, g1) -> bind m f g = (Raise ex, g1).
Proof. intros Hm. unfold bind. rewrite Hm. reflexivity. Qed.

Lemma tuple_index_cases {A} (t : list A) (i : Z) (g : Game) :
  (exists a, tuple_index t i g = (Ok a, g)) \/
  tuple_index t i g = (Raise IndexError, g).
Proof.
  unfold tuple_index.
  destruct (decide _); [destruct (t !! _)|]; eauto.
Qed.

Lemma FencingEnemy_target_cases hm r c g :
  (exists tar, FencingEnemy_target hm r c g = (Ok tar, g)) \/
  FencingEnemy_target hm r c g = (Raise IndexError, g).
Proof.
  unfold FencingEnemy_target.
  destruct (tuple_index_cases [-1; 1; 1; -1] c g) as [(sx & Hx)|Hx].
  2:{ right. apply bind_Raise, Hx. }
  rewrite !(bind_Ok _ _ _ _ _ Hx).
  destruct (tuple_index_cases [-1; 1] (c / 2) g) as [(sy & Hy)|Hy].
  2:{ right. apply bind_Raise, Hy. }
  rewrite !(bind_Ok _ _ _ _ _ Hy).
  left. eexists. reflexivity.
Qed.

Lemma FencingEnemy_update_no_division_fault depth self dt g e :
  enemies g !! self = Some e ->
  (0 < dt * en_speed e ^ 2)%R ->
  no_division_fault (FencingEnemy_update depth self dt g).
Proof.
  revert g e. induction depth as [|depth IH]; intros g e He Hpos.
  - discriminate.
  - pose proof (lookup_lt_Some _ _ _ He) as Hlt.
    simpl. unfold get_enemy at 1.
    rewrite bind_gets, (list_lookup_total_correct _ _ _ He).
    destruct (en_strategy e) as [| |c dir r|] eqn:Es; try discriminate.
    rewrite bind_gets.
    destruct (FencingEnemy_target_cases (home g) r c g)
      as [([tx ty] & Htar)|Htar];
      unfold bind at 1; rewrite Htar; [|discriminate].
    cbn [fst snd].
    destruct (decide _) as [_|Hfar].
    + destruct (tuple_index_cases [1; -1] (if dir then 1 else 0) g)
        as [(turn & Hturn)|Hturn];
        unfold bind at 1; rewrite Hturn; [|discriminate].
      unfold set_enemy. rewrite bind_modify.
      apply (IH _ (set_strategy
                     (FencingEnemy ((c + turn) mod 4) dir r) e)).
      * simpl. apply list_lookup_insert_eq, Hlt.
      * exact Hpos.
    + apply (Enemy_advance_no_division_fault self tx ty dt g e);
        assumption.
Qed.

(** X5.  With [dt * speed ^ 2] above zero, the update of a random walk
    enemy and of a fencing enemy never divides by zero: an enemy on its
    very target has arrived and is given another target before any
    division. *)
Theorem walking_enemies_never_divide_by_zero
    (g : Game) (depth self : nat) (e : Enemy) (dt : R) :
  enemies g !! self = Some e ->
  (0 < dt * en_speed e ^ 2)%R ->
  raises (RandomWalkEnemy_update depth self dt) g <> Some ZeroDivisionError /\
  raises (FencingEnemy_update depth self dt) g <> Some ZeroDivisionError.
Proof.
  intros He Hpos.
  pose proof (RandomWalkEnemy_update_no_division_fault depth self dt g e
                He Hpos) as Hw.
  pose proof (FencingEnemy_update_no_division_fault depth self dt g e
                He Hpos) as Hf.
  unfold no_division_fault, raises in *.
  split.
  - destruct (fst (RandomWalkEnemy_update depth self dt g)) as [|ex];
      [discriminate|]. intros Heq. apply Hw. congruence.
  - destruct (fst (FencingEnemy_update depth self dt g)) as [|ex];
      [discriminate|]. intros Heq. apply Hf. congruence.
Qed.

Lemma walking_enemies_never_divide_by_zero_witness :
  raises (RandomWalkEnemy_update 3 0 1)
    (set_enemies [mkEnemy 7 7 20 red 150 (RandomWalkEnemy 7 7)]
       (TurtleAdventureGame_init 800 500 1 (fun _ => 0)))
  <> Some ZeroDivisionError.
Proof.
  apply (walking_enemies_never_divide_by_zero
           (set_enemies [mkEnemy 7 7 20 red 150 (RandomWalkEnemy 7 7)]
              (TurtleAdventureGame_init 800 500 1 (fun _ => 0)))
           3 0 (mkEnemy 7 7 20 red 150 (RandomWalkEnemy 7 7)) 1).
  - reflexivity.
  - simpl. lra.
Defined.

(** ** Recursion on arrival *)




Lemma randint_zero_eq (b : Z) (g : Game) :
  0 <= b ->
  randint 0 b g
  = (Ok (rng g 0%nat mod (b + 1)), set_rng (fun n => rng g (S n)) g).
Proof.
  intros Hb. unfold randint.
  destruct (decide (b < 0)) as [Hlt|_]; [lia|].
  unfold bind, random_draw, ret.
  rewrite Z.add_0_l, Z.sub_0_r. reflexivity.
Qed.

(** ** Where and how enemies are spawned *)

Lemma bind_choice2 {A B} (x y : A) (f : A -> M B) (g : Game)
    (Q : result B * Game -> Prop) :
  Q (f x (set_rng (fun n => rng g (S n)) g)) ->
  Q (f y (set_rng (fun n => rng g (S n)) g)) ->
  Q (bind (choice x [y]) f g).
Proof.
  intros Hx Hy. apply bind_choice. intros a [<-|[<-|[]]]; assumption.
Qed.

Lemma generate_spawnpos_result g :
  exists r,
    (exists ex, EnemyGenerator_generate_spawnpos g = (Raise ex, set_rng r g)
                /\ ~ (0 <= screen_width g /\ 0 <= screen_height g)) \/
    (exists x y, EnemyGenerator_generate_spawnpos g = (Ok (x, y), set_rng r g)
                 /\ (0 <= screen_width g -> 0 <= screen_height g ->
                     on_border (screen_width g) (screen_height g) x y)).
Proof.
  unfold EnemyGenerator_generate_spawnpos.
  apply bind_choice2.
  - rewrite bind_gets. apply bind_choice2; rewrite bind_gets;
      (apply bind_randint;
       [ intros Hneg; simpl in Hneg; eexists; left; eexists;
         split; [reflexivity | lia]
       | intros y Hy; simpl in Hy; eexists; right; eexists; eexists;
         split; [reflexivity|]; intros HW HH; unfold on_border;
         simpl; lia ]).
  - rewrite bind_gets. apply bind_choice2; rewrite bind_gets;
      (apply bind_randint;
       [ intros Hneg; simpl in Hneg; eexists; left; eexists;
         split; [reflexivity | lia]
       | intros x Hx; simpl in Hx; eexists; right; eexists; eexists;
         split; [reflexivity|]; intros HW HH; unfold on_border;
         simpl; lia ]).
Qed.

(** X8.  On a screen without a negative side, [generate_spawnpos()]
    returns a whole point of the border of the screen: within
    [0..screen_width] by [0..screen_height], with [x] at 0 or at
    [screen_width], or [y] at 0 or at [screen_height]; it only consumes
    random draws. *)
Theorem generate_spawnpos_on_border (g : Game) :
  0 <= screen_width g ->
  0 <= screen_height g ->
  exists x y r,
    EnemyGenerator_generate_spawnpos g = (Ok (x, y), set_rng r g) /\
    on_border (screen_width g) (screen_height g) x y.
Proof.
  intros HW HH.
  destruct (generate_spawnpos_result g)
    as (r & [(ex & _ & Hbad)|(x & y & Heq & Hon)]).
  - destruct Hbad. split; assumption.
  - exists x, y, r. split; [exact Heq | apply Hon; assumption].
Qed.

Lemma generate_spawnpos_on_border_witness :
  exists x y r,
    EnemyGenerator_generate_spawnpos
      (TurtleAdventureGame_init 800 500 1 (fun _ => 0))
    = (Ok (x, y),
       set_rng r (TurtleAdventureGame_init 800 500 1 (fun _ => 0))) /\
    on_border 800 500 x y.
Proof.
  apply (generate_spawnpos_on_border
           (TurtleAdventureGame_init 800 500 1 (fun _ => 0))); simpl; lia.
Defined.

Lemma bind_assoc {A B C} (m : M A) (k : A -> M B) (f : B -> M C) g :
  bind (bind m k) f g = bind m (fun a => bind (k a) f) g.
Proof. unfold bind. destruct (m g) as [[a|ex] g1]; reflexivity. Qed.

(** One of the three constructors runs: it raises, from a state that
    differs by random draws only, or it returns an enemy of the given size
    and speed whose own state is as the class draws it; it returns on
    screens without a negative side only. *)
Lemma bind_enemy_init {B}
    (init : Z -> Color -> R -> M Enemy) (size : Z) (color : Color)
    (speed : R) (f : Enemy -> M B) (g : Game)
    (Q : result B * Game -> Prop) :
  In init [RandomWalkEnemy_init; ChasingEnemy_init; FencingEnemy_init] ->
  (forall ex, Q (Raise ex, g)) ->
  (forall r ex, Q (Raise ex, set_rng r g)) ->
  (forall r e,
     en_size e = size -> en_speed e = speed ->
     strategy_ok (screen_width g) (screen_height g) (en_strategy e) ->
     0 <= screen_width g -> 0 <= screen_height g ->
     Q (f e (set_rng r g))) ->
  Q (bind (init size color speed) f g).
Proof.
  intros Hin Hraise0 Hraise Hok.
  destruct Hin as [<-|[<-|[<-|[]]]].
  - unfold RandomWalkEnemy_init.
    rewrite bind_assoc, bind_gets, bind_assoc.
    apply bind_randint; [intros _; apply Hraise0|]. intros x Hx.
    rewrite bind_assoc, bind_gets, bind_assoc.
    apply bind_randint; [intros _; apply Hraise|]. intros y Hy.
    rewrite bind_assoc.
    apply bind_randint; [intros _; apply Hraise|]. intros tx Htx.
    rewrite bind_assoc.
    apply bind_randint; [intros _; apply Hraise|]. intros ty Hty.
    rewrite bind_ret. simpl in Hx, Hy, Htx, Hty.
    apply Hok; try reflexivity; try lia.
    simpl. exists tx, ty. auto.
  - unfold ChasingEnemy_init.
    rewrite bind_assoc, bind_gets, bind_assoc.
    apply bind_randint; [intros _; apply Hraise0|]. intros x Hx.
    rewrite bind_assoc, bind_gets, bind_assoc.
    apply bind_randint; [intros _; apply Hraise|]. intros y Hy.
    rewrite bind_ret. simpl in Hx, Hy.
    apply Hok; try reflexivity; try lia.
  - unfold FencingEnemy_init.
    rewrite bind_assoc, bind_gets, bind_assoc.
    apply bind_randint; [intros _; apply Hraise0|]. intros x Hx.
    rewrite bind_assoc, bind_gets, bind_assoc.
    apply bind_randint; [intros _; apply Hraise|]. intros y Hy.
    rewrite bind_assoc.
    apply bind_randint; [intros _; apply Hraise|]. intros c Hc.
    rewrite bind_assoc. apply bind_choice. intros dir _.
    rewrite bind_assoc.
    apply bind_randint; [intros _; apply Hraise|]. intros rad Hrad.
    rewrite bind_ret. simpl in Hx, Hy.
    apply Hok; try reflexivity; try lia.
    simpl. lia.
Qed.

Lemma create_enemy_result g :
  Z.of_nat (List.length (enemies g)) < 3 * enemy_generator_level g ->
  exists r,
    (exists ex, EnemyGenerator_create_enemy g = (Raise ex, set_rng r g)) \/
    (exists e,
       EnemyGenerator_create_enemy g = (Ok tt, spawned e r g) /\
       enemy_ok (screen_width g) (screen_height g) e /\
       spawns_on_border (screen_width g) (screen_height g) e).
Proof.
  intros Hcap.
  set (Q := fun res : result unit * Game =>
    exists r,
      (exists ex, res = (Raise ex, set_rng r g)) \/
      (exists e,
         res = (Ok tt, spawned e r g) /\
         enemy_ok (screen_width g) (screen_height g) e /\
         spawns_on_border (screen_width g) (screen_height g) e)).
  change (Q (EnemyGenerator_create_enemy g)).
  unfold EnemyGenerator_create_enemy.
  rewrite !bind_gets.
  destruct (decide _) as [Hge|_]; [lia|].
  unfold int_of_quotient.
  destruct (decide (3 * enemy_generator_level g = 0)) as [H0|_]; [lia|].
  rewrite bind_ret.
  assert (Hraise : forall r ex, Q (Raise ex, set_rng r g)).
  { intros r ex. exists r. left. exists ex. reflexivity. }
  apply bind_choice. intros enemy_type Hty.
  apply bind_choice. intros size Hsize.
  apply bind_choice. intros color _.
  apply bind_randint; [intros _; apply Hraise|]. intros sp Hsp.
  apply bind_enemy_init;
    [exact Hty | intros ex; apply Hraise | intros r ex; apply Hraise |].
  intros r e Esize Espeed Hstrat HW HH. simpl in HW, HH, Hstrat.
  destruct (generate_spawnpos_result (set_rng r g))
    as (r' & [(ex & Hpos & _)|(x & y & Hpos & Hon)]).
  - rewrite (bind_Raise _ _ _ _ _ Hpos). apply Hraise.
  - rewrite (bind_Ok _ _ _ _ _ Hpos).
    exists r'. right. eexists. split; [reflexivity|].
    specialize (Hon HW HH). simpl in Hon. split.
    + unfold enemy_ok. cbn [set_position en_size en_speed en_strategy].
      rewrite Esize, Espeed. split; [exact Hsize|].
      split; [exists (150 + sp); split; [lia | reflexivity] | exact Hstrat].
    + exists x, y. cbn [set_position en_x en_y fst snd]. auto.
Qed.

(** X9.  Below the capacity, on a screen without a negative side,
    [create_enemy()] adds an enemy of size 15, 20 or 30 and of a whole speed
    of 150..180, of one of the three moving classes (never a [DemoEnemy]),
    placed on a whole point of the border of the screen; a random walk gets
    a target on the screen, a fencing enemy a corner of 0..3 and a radius
    of 60..100. *)
Theorem create_enemy_spawned_enemy (g : Game) :
  0 <= screen_width g ->
  0 <= screen_height g ->
  Z.of_nat (List.length (enemies g)) < 3 * enemy_generator_level g ->
  exists e r,
    EnemyGenerator_create_enemy g = (Ok tt, spawned e r g) /\
    enemy_ok (screen_width g) (screen_height g) e /\
    spawns_on_border (screen_width g) (screen_height g) e.
Proof.
  intros HW HH Hcap.
  destruct (create_enemy_spawns g HW HH Hcap) as (e0 & r0 & Hok).
  destruct (create_enemy_result g Hcap)
    as (r & [(ex & Hraise)|(e & Heq & Hprops)]).
  - rewrite Hok in Hraise. discriminate.
  - exists e, r. split; [exact Heq | exact Hprops].
Qed.

Lemma create_enemy_spawned_enemy_witness :
  exists e r,
    EnemyGenerator_create_enemy
      (TurtleAdventureGame_init 800 500 1 (fun _ => 0))
    = (Ok tt, spawned e r (TurtleAdventureGame_init 800 500 1 (fun _ => 0)))
    /\ enemy_ok 800 500 e /\ spawns_on_border 800 500 e.
Proof.
  apply (create_enemy_spawned_enemy
           (TurtleAdventureGame_init 800 500 1 (fun _ => 0))); simpl; lia.
Defined.

(** ** What every state of a game keeps *)

Lemma preserves_bind (P : Game -> Prop) {A B} (m : M A) (f : A -> M B) :
  preserves P m -> (forall a, preserves P (f a)) -> preserves P (bind m f).
Proof.
  intros Hm Hf g HP. rewrite exec_bind.
  destruct (fst (m g)); [apply Hf|]; apply Hm, HP.
Qed.

Lemma preserves_for_range (P : Game -> Prop) body i n :
  (forall j, preserves P (body j)) -> preserves P (for_range i n body).
Proof.
  intros Hb. revert i. induction n as [|n IH]; intros i; simpl.
  - intros g HP. exact HP.
  - apply preserves_bind; [apply Hb | intros _; apply IH].
Qed.

Lemma evolves_ok w h e e' :
  enemy_ok w h e -> evolves w h e e' -> enemy_ok w h e'.
Proof.
  unfold enemy_ok, evolves.
  intros (Hsize & Hspeed & Hst) (Es & _ & Ev & Hev).
  rewrite Es, Ev. split; [exact Hsize|]. split; [exact Hspeed|].
  destruct (en_strategy e) as [tarx tary| |c dir r|],
           (en_strategy e') as [tarx' tary'| |c' dir' r'|];
    try contradiction; auto; simpl in *.
  - destruct Hev as [(-> & ->)|(tx & ty & H)]; [exact Hst|].
    exists tx, ty. exact H.
  - destruct Hev as (_ & -> & Hc). destruct Hc as [->|Hc]; lia.
Qed.

Lemma well_formed_Player_update w h dt :
  preserves (well_formed w h) (Player_update dt).
Proof.
  intros g (HW & HH & Hhome & Hsp & Hen).
  rewrite Player_update_eq. cbv zeta.
  destruct (Home_contains _ _ _), (is_active (waypoint g));
    try destruct (decide _); repeat split; assumption.
Qed.

Lemma well_formed_Enemy_update w h depth self dt :
  preserves (well_formed w h) (Enemy_update depth self dt).
Proof.
  intros g (HW & HH & Hhome & Hsp & Hen).
  destruct (enemies g !! self) as [e|] eqn:He.
  - destruct (Enemy_update_updated depth self dt g e He)
      as (e' & Hch & Hev).
    destruct Hch as (En & Pl & _ & Ho & _ & _ & SW & SH & _).
    unfold well_formed. rewrite En, Pl, Ho, SW, SH.
    repeat split; try assumption.
    apply Forall_insert; [exact Hen|].
    rewrite HW, HH in Hev. eapply evolves_ok; [|exact Hev].
    eapply Forall_lookup_1; eassumption.
  - unfold exec, Enemy_update, get_enemy.
    rewrite bind_gets, list_lookup_total_alt, He. simpl.
    repeat split; assumption.
Qed.

Lemma well_formed_frame w h depth dt :
  preserves (well_formed w h) (frame depth dt).
Proof.
  unfold frame. intros g Hwf. unfold exec. rewrite bind_gets.
  destruct (running g); [|exact Hwf].
  revert g Hwf.
  change (preserves (well_formed w h) (Game_update depth dt)).
  unfold Game_update, Waypoint_update, Home_update.
  apply preserves_bind; [intros g Hwf; exact Hwf | intros _].
  apply preserves_bind; [intros g Hwf; exact Hwf | intros _].
  apply preserves_bind; [apply well_formed_Player_update | intros _].
  apply preserves_bind; [intros g Hwf; exact Hwf | intros es].
  apply preserves_for_range. intros j. apply well_formed_Enemy_update.
Qed.

Lemma well_formed_create_enemy w h :
  preserves (well_formed w h) EnemyGenerator_create_enemy.
Proof.
  intros g (HW & HH & Hhome & Hsp & Hen).
  destruct (Z_lt_le_dec (Z.of_nat (List.length (enemies g)))
              (3 * enemy_generator_level g)) as [Hlt|Hge].
  - destruct (create_enemy_result g Hlt)
      as (r & [(ex & Heq)|(e & Heq & Hok & _)]);
      unfold exec; rewrite Heq; simpl.
    + repeat split; assumption.
    + repeat split; try assumption.
      apply Forall_app. split; [exact Hen|].
      rewrite HW, HH in Hok. apply Forall_cons. split; [exact Hok|].
      apply Forall_nil. exact I.
  - unfold exec. rewrite (create_enemy_at_capacity g Hge).
    repeat split; assumption.
Qed.

Lemma well_formed_start_game w h : preserves (well_formed w h) start_game.
Proof.
  intros g (HW & HH & Hhome & Hsp & Hen).
  unfold exec. rewrite start_game_eq.
  apply well_formed_create_enemy. repeat split; assumption.
Qed.

Lemma well_formed_new_game w h : preserves (well_formed w h) new_game.
Proof.
  intros g (HW & HH & Hhome & Hsp & Hen).
  assert (E : exec new_game g
             = exec (EnemyGenerator_create_enemy ;; start_game)
                 (next_level g)) by reflexivity.
  rewrite E.
  apply preserves_bind;
    [apply well_formed_create_enemy
    | intros _; apply well_formed_start_game |].
  repeat split; try assumption. simpl. apply Forall_nil. exact I.
Qed.

Lemma well_formed_step w h ev g : well_formed w h g -> well_formed w h (step ev g).
Proof.
  intros Hwf.
  destruct ev as [x y|depth dt|k| | |]; unfold step; simpl.
  - destruct Hwf as (HW & HH & Hhome & Hsp & Hen). repeat split; assumption.
  - apply well_formed_frame, Hwf.
  - unfold exec. rewrite fire_timer_eq.
    destruct (timers g !! k) as [[d [|text_id]]|]; simpl; [| |exact Hwf].
    + apply (well_formed_create_enemy w h
               (set_timers (delete k (timers g)) g)).
      destruct Hwf as (HW & HH & Hhome & Hsp & Hen).
      repeat split; assumption.
    + apply (well_formed_new_game w h
               (set_canvas
                  (filter (fun it => fst it <> text_id) (texts g))
                  (next_id g)
                  (set_timers (delete k (timers g)) g))).
      destruct Hwf as (HW & HH & Hhome & Hsp & Hen).
      repeat split; assumption.
  - apply well_formed_start_game, Hwf.
  - apply well_formed_new_game, Hwf.
  - apply well_formed_create_enemy, Hwf.
Qed.

(** X10.  In every state a game can reach, whatever the level it was built
    with, the screen and the home are those of the constructor, the
    player's speed is 180, and every enemy is as the generator builds
    them: size 15, 20 or 30, whole speed of 150..180, never a [DemoEnemy],
    a random walk target on the screen, a fencing corner of 0..3 with a
    radius of 60..100 (so the tuple lookups of [FencingEnemy.update] are
    never out of range). *)
Theorem reachable_well_formed
    (w h l : Z) (seed : nat -> Z) (g : Game) :
  reachable (TurtleAdventureGame_init w h l seed) g ->
  well_formed w h g /\
  (forall self e c dir r,
     enemies g !! self = Some e ->
     en_strategy e = FencingEnemy c dir r ->
     exists tar, FencingEnemy_target (home g) r c g = (Ok tar, g)).
Proof.
  intros Hr.
  assert (Hwf : well_formed w h g).
  { induction Hr as [|g ev Hr IH].
    - repeat split. simpl. apply Forall_nil. exact I.
    - apply well_formed_step, IH. }
  split; [exact Hwf|].
  intros self e c dir r He Hs.
  destruct Hwf as (_ & _ & _ & _ & Hen).
  pose proof (Forall_lookup_1 _ _ _ _ Hen He) as (_ & _ & Hst).
  rewrite Hs in Hst. simpl in Hst. destruct Hst as (Hc & _).
  destruct (FencingEnemy_target_corners (home g) r g)
    as (T0 & T1 & T2 & T3).
  assert (Hcases : c = 0 \/ c = 1 \/ c = 2 \/ c = 3) by lia.
  destruct Hcases as [ -> | [ -> | [ -> | -> ] ] ]; eauto.
Qed.

Lemma reachable_well_formed_witness :
  well_formed 800 500
    (step ev_new_game (TurtleAdventureGame_init 800 500 1 (fun _ => 0))).
Proof.
  apply (reachable_well_formed 800 500 1 (fun _ => 0)).
  apply reach_step, reach_init.
Defined.

(** ** From one level to the next *)

Lemma new_game_run g :
  0 <= screen_width g -> 0 <= screen_height g -> 0 <= level g ->
  exists e1 r1 e2 r2,
    let g1 := spawned e1 r1 (next_level g) in
    let g2 :=
      set_running true
        (set_player
           (set_turtle
              (Turtle_sety (IZR (screen_height g / 2))
                 (Turtle_setx 50 (plr_turtle (player g))))
              (player g)) g1) in
    new_game g = (Ok tt, spawned e2 r2 g2).
Proof.
  intros HW HH Hl.
  destruct (create_enemy_spawns (next_level g)) as (e1 & r1 & H1);
    simpl; try assumption; try lia.
  exists e1, r1.
  set (g1 := spawned e1 r1 (next_level g)).
  set (g2 := set_running true
               (set_player
                  (set_turtle
                     (Turtle_sety (IZR (screen_height g / 2))
                        (Turtle_setx 50 (plr_turtle (player g))))
                     (player g)) g1)).
  destruct (create_enemy_spawns g2) as (e2 & r2 & H2);
    simpl; try assumption; try lia.
  exists e2, r2. cbv zeta. fold g1 g2.
  rewrite new_game_eq, (bind_Ok _ _ _ _ _ H1). fold g1.
  rewrite start_game_eq. exact H2.
Qed.

(** X11.  On a screen without a negative side and from a level that is not
    negative, [new_game()] returns with the level raised by one, the loop
    running, the player back at [(50, screen_height // 2)], exactly two
    enemies (one spawned by [new_game()] itself, one by [start_game()]) and
    two more delayed [create_enemy()] calls queued behind those that were
    pending, none of which is cancelled. *)
Theorem new_game_spawns_twice (g : Game) :
  0 <= screen_width g -> 0 <= screen_height g -> 0 <= level g ->
  let g' := exec new_game g in
  let delay := Z.quot 3000 (3 * (level g + 1)) in
  raises new_game g = None /\
  level g' = level g + 1 /\
  running g' = true /\
  plr_x (player g') = 50%R /\
  plr_y (player g') = IZR (screen_height g / 2) /\
  (exists e1 e2, enemies g' = [e1; e2]) /\
  timers g'
  = timers g ++ [(delay, cb_create_enemy); (delay, cb_create_enemy)].
Proof.
  intros HW HH Hl g' delay.
  destruct (new_game_run g HW HH Hl) as (e1 & r1 & e2 & r2 & Heq).
  cbv zeta in Heq. unfold g', raises, exec. rewrite Heq. simpl.
  split; [reflexivity|]. split; [reflexivity|]. split; [reflexivity|].
  split; [reflexivity|]. split; [reflexivity|].
  split; [exists e1, e2; reflexivity|].
  rewrite <- app_assoc. reflexivity.
Qed.

Lemma new_game_spawns_twice_witness :
  level (exec new_game (TurtleAdventureGame_init 800 500 1 (fun _ => 0)))
  = 1 + 1.
Proof.
  apply (new_game_spawns_twice
           (TurtleAdventureGame_init 800 500 1 (fun _ => 0)));
    simpl; lia.
Defined.

Lemma filter_out_new_text (id : nat) (text : string)
    (items : list (nat * string)) :
  filter (fun it => fst it <> id) (items ++ [(id, text)])
  = filter (fun it => fst it <> id) items.
Proof.
  rewrite filter_app, filter_cons_False, filter_nil, app_nil_r;
    [reflexivity|].
  simpl. intros Hne. apply Hne. reflexivity.
Qed.

(** X12.  When the delayed call queued by [game_over_win()] fires, it
    deletes the "You Win" text that [game_over_win()] drew and runs
    [new_game()]: the level is one higher than when the player won. *)
Theorem win_callback_starts_next_level (g : Game) :
  let g1 := exec game_over_win g in
  let g2 := step (ev_timer (List.length (timers g))) g1 in
  g2 = exec new_game
         (set_canvas
            (filter (fun it => fst it <> next_id g) (texts g))
            (S (next_id g))
            (set_running false g)) /\
  level g2 = level g + 1 /\
  enemy_generator_level g2 = level g + 1.
Proof.
  cbv zeta.
  assert (Hstep :
    step (ev_timer (List.length (timers g))) (exec game_over_win g)
    = exec new_game
        (set_canvas
           (filter (fun it => fst it <> next_id g) (texts g))
           (S (next_id g))
           (set_running false g))).
  { change (exec game_over_win g) with (won g).
    unfold step, exec at 1. simpl handle.
    rewrite fire_timer_eq.
    change (timers (won g))
      with (timers g ++ [(2000, cb_win_clear (next_id g))]).
    rewrite list_lookup_middle by reflexivity.
    rewrite delete_middle, app_nil_r.
    unfold run_callback, canvas_delete. rewrite bind_modify.
    cbn [texts next_id won set_timers set_canvas set_running].
    rewrite filter_out_new_text.
    unfold exec. f_equal. }
  rewrite Hstep. split; [reflexivity|].
  destruct (new_game_effect
              (set_canvas
                 (filter (fun it => fst it <> next_id g) (texts g))
                 (S (next_id g))
                 (set_running false g))) as (El & Eg & _).
  split; [exact El | exact Eg].
Qed.

(** ** The spawn chain of any level *)

Lemma chain_start_at w h L seed :
  0 <= w -> 0 <= h -> 1 <= L ->
  chain_pending_at L 1
    (step ev_create_enemy (TurtleAdventureGame_init w h L seed)).
Proof.
  intros HW HH HL. unfold step, exec; simpl.
  destruct (create_enemy_spawns (TurtleAdventureGame_init w h L seed))
    as (e & r & ->); simpl; try lia.
  repeat split; assumption.
Qed.

Lemma chain_next_at L n g :
  chain_pending_at L n g -> Z.of_nat n < 3 * L ->
  chain_pending_at L (S n) (step (ev_timer 0) g).
Proof.
  intros (Hn & Ht & Hg & HW & HH) Hlt.
  unfold step, exec; simpl. rewrite fire_timer_eq, Ht. simpl.
  destruct (create_enemy_spawns (set_timers [] g)) as (e & r & ->);
    simpl; try assumption; try lia.
  unfold chain_pending_at; simpl. rewrite length_app, Hn, Hg. simpl.
  repeat split; try assumption. lia.
Qed.

Lemma chain_end_at L n g :
  chain_pending_at L n g -> 3 * L <= Z.of_nat n ->
  step (ev_timer 0) g = set_timers [] g.
Proof.
  intros (Hn & Ht & Hg & HW & HH) Hge.
  unfold step, exec; simpl. rewrite fire_timer_eq, Ht. simpl.
  rewrite create_enemy_at_capacity; [reflexivity|].
  simpl. rewrite Hn, Hg. lia.
Qed.

Lemma drain_spawn_chain_at L k :
  forall n g fuel,
    chain_pending_at L n g ->
    Z.of_nat (n + k) = 3 * L ->
    exists g',
      drain_spawn_chain (S k + fuel) g = (S k, g') /\
      Z.of_nat (List.length (enemies g')) = 3 * L /\
      timers g' = [].
Proof.
  induction k as [|k IH]; intros n g fuel Hp Hn.
  - exists (set_timers [] g).
    pose proof Hp as (Hlen & Ht & _).
    rewrite (drain_spawn_chain_pending _ _ _ _ Ht).
    rewrite (chain_end_at L n g Hp) by lia.
    rewrite drain_spawn_chain_idle by reflexivity.
    split; [reflexivity|]. simpl. split; [lia | reflexivity].
  - pose proof Hp as (Hlen & Ht & _).
    destruct (IH (S n) (step (ev_timer 0) g) fuel) as (g' & Hd & Hres).
    + apply chain_next_at; [exact Hp | lia].
    + lia.
    + exists g'. split; [|exact Hres].
      change (S (S k) + fuel)%nat with (S (S k + fuel)).
      rewrite (drain_spawn_chain_pending _ _ _ _ Ht), Hd. reflexivity.
Qed.

(** X13.  At any level [L] of at least 1, on a screen without a negative
    side, the spawn chain started by one [create_enemy()] on the new game
    adds exactly [3 * L] enemies and ends by itself: [create_enemy] runs
    [3 * L + 1] times, the last time without adding or queueing anything. *)
Theorem spawn_chain_fills_level
    (w h L : Z) (seed : nat -> Z) (fuel : nat) :
  0 <= w -> 0 <= h -> 1 <= L ->
  exists g',
    spawn_chain (Z.to_nat (3 * L) + fuel)
      (TurtleAdventureGame_init w h L seed)
    = (S (Z.to_nat (3 * L)), g') /\
    Z.of_nat (List.length (enemies g')) = 3 * L /\
    timers g' = [].
Proof.
  intros HW HH HL.
  pose proof (chain_start_at w h L seed HW HH HL) as H1.
  destruct (drain_spawn_chain_at L (Z.to_nat (3 * L) - 1) 1
              (step ev_create_enemy (TurtleAdventureGame_init w h L seed))
              fuel H1 ltac:(lia)) as (g' & Hd & Hres).
  exists g'. split; [|exact Hres].
  unfold spawn_chain.
  replace (Z.to_nat (3 * L) + fuel)%nat
    with (S (Z.to_nat (3 * L) - 1) + fuel)%nat by lia.
  rewrite Hd. f_equal. lia.
Qed.

Lemma spawn_chain_fills_level_witness :
  exists g',
    spawn_chain (Z.to_nat (3 * 2) + 0)
      (TurtleAdventureGame_init 800 500 2 (fun _ => 0))
    = (S (Z.to_nat (3 * 2)), g') /\
    Z.of_nat (List.length (enemies g')) = 3 * 2 /\
    timers g' = [].
Proof.
  apply (spawn_chain_fills_level 800 500 2 (fun _ => 0) 0); lia.
Defined.

(** ** The start of a game *)

Lemma create_enemy_keeps_player g :
  player (exec EnemyGenerator_create_enemy g) = player g /\
  running (exec EnemyGenerator_create_enemy g) = running g /\
  home (exec EnemyGenerator_create_enemy g) = home g /\
  waypoint (exec EnemyGenerator_create_enemy g) = waypoint g.
Proof.
  destruct (Z_lt_le_dec (Z.of_nat (List.length (enemies g)))
              (3 * enemy_generator_level g)) as [Hlt|Hge].
  - destruct (create_enemy_below_capacity g Hlt) as (r & [Hr|(e & He)] & _);
      unfold exec in *.
    + rewrite Hr. auto.
    + rewrite He. auto.
  - unfold exec. rewrite (create_enemy_at_capacity g Hge). auto.
Qed.

Lemma start_game_player g :
  let g' := exec start_game g in
  plr_x (player g') = 50%R /\
  plr_y (player g') = IZR (screen_height g / 2) /\
  plr_speed (player g') = plr_speed (player g) /\
  running g' = true /\
  home g' = home g /\
  waypoint g' = waypoint g.
Proof.
  cbv zeta. unfold exec. rewrite start_game_eq.
  destruct (create_enemy_keeps_player
              (set_running true
                 (set_player
                    (set_turtle
                       (Turtle_sety (IZR (screen_height g / 2))
                          (Turtle_setx 50 (plr_turtle (player g))))
                       (player g)) g))) as (Hp & Hr & Hh & Hw).
  unfold exec in Hp, Hr, Hh, Hw. rewrite Hp, Hr, Hh, Hw.
  repeat split.
Qed.

(** X14.  In every state a game can reach, [start_game()] puts the player
    at [(50, screen_height // 2)] with the loop running and leaves the
    waypoint as it was; the home, centred at
    [(screen_width - 100, screen_height // 2)] with size 20, contains that
    start position exactly when [140 <= screen_width <= 160], so on any
    other screen a game never starts as won. *)
Theorem start_game_places_player
    (w h l : Z) (seed : nat -> Z) (g : Game) :
  reachable (TurtleAdventureGame_init w h l seed) g ->
  let g' := exec start_game g in
  plr_x (player g') = 50%R /\
  plr_y (player g') = IZR (h / 2) /\
  running g' = true /\
  waypoint g' = waypoint g /\
  (Home_contains (home g') (plr_x (player g')) (plr_y (player g')) = true
   <-> 140 <= w <= 160).
Proof.
  intros Hr g'.
  assert (Hwf : well_formed w h g).
  { induction Hr as [|g ev Hr IH].
    - repeat split. simpl. apply Forall_nil. exact I.
    - apply well_formed_step, IH. }
  destruct Hwf as (_ & HH & Hhome & _).
  destruct (start_game_player g) as (Hx & Hy & _ & Hrun & Hh & Hwp).
  fold g' in Hx, Hy, Hrun, Hh, Hwp. rewrite HH in Hy.
  split; [exact Hx|]. split; [exact Hy|]. split; [exact Hrun|].
  split; [exact Hwp|].
  rewrite Home_contains_iff, Hx, Hy, Hh, Hhome. simpl.
  rewrite minus_IZR. split.
  - intros ((Hlo & Hhi) & _).
    assert (H1 : (IZR 140 <= IZR w)%R) by lra.
    assert (H2 : (IZR w <= IZR 160)%R) by lra.
    apply le_IZR in H1, H2. lia.
  - intros (Hlo & Hhi). apply IZR_le in Hlo, Hhi. lra.
Qed.

Lemma start_game_places_player_witness :
  Home_contains
    (home (exec start_game (TurtleAdventureGame_init 150 500 1 (fun _ => 0))))
    (plr_x (player (exec start_game
                      (TurtleAdventureGame_init 150 500 1 (fun _ => 0)))))
    (plr_y (player (exec start_game
                      (TurtleAdventureGame_init 150 500 1 (fun _ => 0)))))
  = true.
Proof.
  apply (start_game_places_player 150 500 1 (fun _ => 0)
           (TurtleAdventureGame_init 150 500 1 (fun _ => 0)));
    [apply reach_init | lia].
Defined.

(** ** The player at rest *)

Lemma Player_update_returns dt g : fst (Player_update dt g) = Ok tt.
Proof.
  unfold Player_update. rewrite !bind_gets.
  destruct (Home_contains _ _ _).
  - unfold bind at 1. rewrite game_over_win_eq, bind_gets.
    destruct (is_active _); [|reflexivity].
    rewrite bind_modify. destruct (decide _); reflexivity.
  - rewrite bind_ret, bind_gets.
    destruct (is_active _); [|reflexivity].
    rewrite bind_modify. destruct (decide _); reflexivity.
Qed.

(** X15.  [Player.update] never raises.  With the waypoint inactive and
    the player outside the home it changes nothing at all, whatever the
    time delta; with the waypoint inactive and the player inside the home
    all it does is signal the win. *)
Theorem Player_update_at_rest (g : Game) (dt : R) :
  is_active (waypoint g) = false ->
  raises (Player_update dt) g = None /\
  (Home_contains (home g) (plr_x (player g)) (plr_y (player g)) = false ->
   exec (Player_update dt) g = g) /\
  (Home_contains (home g) (plr_x (player g)) (plr_y (player g)) = true ->
   exec (Player_update dt) g = won g).
Proof.
  intros Hact. unfold raises. rewrite Player_update_returns.
  split; [reflexivity|].
  rewrite Player_update_eq, Hact. cbv zeta.
  split; intros ->; reflexivity.
Qed.

Lemma Player_update_at_rest_witness :
  exec (Player_update 1) (TurtleAdventureGame_init 800 500 1 (fun _ => 0))
  = TurtleAdventureGame_init 800 500 1 (fun _ => 0).
Proof.
  apply (Player_update_at_rest
           (TurtleAdventureGame_init 800 500 1 (fun _ => 0)) 1).
  - reflexivity.
  - apply not_true_is_false. intros Hin.
    apply Home_contains_iff in Hin. simpl in Hin.
    change (800 - 100) with 700 in Hin. unfold plr_x in Hin. simpl in Hin.
    lra.
Defined.

(** ** Containment at the edges *)

(** X17.  A home of negative size contains no point, and a home contains
    its own centre exactly when its size is not negative. *)
Theorem Home_contains_centre (h : Home) :
  (Home_contains h (home_x h) (home_y h) = true <-> 0 <= home_size h) /\
  (home_size h < 0 -> forall x y, Home_contains h x y = false).
Proof.
  split.
  - rewrite Home_contains_iff. split.
    + intros ((Hlo & Hhi) & _).
      assert (H0 : (IZR 0 <= IZR (home_size h))%R) by lra.
      apply le_IZR in H0. exact H0.
    + intros Hs. apply IZR_le in Hs. lra.
  - intros Hneg x y. apply not_true_is_false. intros Hin.
    apply Home_contains_iff in Hin. apply IZR_lt in Hneg. lra.
Qed.

Lemma Home_contains_centre_witness :
  Home_contains (mkHome 700 250 (-20)) 700 250 = false.
Proof.
  apply (Home_contains_centre (mkHome 700 250 (-20))). simpl. lia.
Defined.

(** ** A frame without time *)

Lemma Player_update_enemies dt g :
  enemies (exec (Player_update dt) g) = enemies g.
Proof.
  rewrite Player_update_eq. cbv zeta.
  destruct (Home_contains _ _ _), (is_active (waypoint g));
    try destruct (decide _); reflexivity.
Qed.

Lemma nobody_moved_Player_update g0 :
  preserves (nobody_moved g0) (Player_update 0).
Proof.
  intros g (Hx & Hy & Hen).
  destruct (Player_update_zero g) as (Hx' & Hy').
  unfold nobody_moved, enemy_stays.
  rewrite Hx', Hy', Player_update_enemies. auto.
Qed.

Lemma nobody_moved_Enemy_update g0 depth self :
  preserves (nobody_moved g0) (Enemy_update depth self 0).
Proof.
  intros g (Hx & Hy & Hen).
  destruct (enemies g !! self) as [es|] eqn:He.
  - destruct (Enemy_update_updated depth self 0 g es He)
      as (e' & (En & Pl & _) & _).
    destruct (Enemy_update_zero depth self g es He)
      as (e'' & He'' & Hx'' & Hy'').
    split; [rewrite Pl; exact Hx|]. split; [rewrite Pl; exact Hy|].
    intros j e Hj. destruct (Hen j e Hj) as (ej & Hej & Hxj & Hyj).
    destruct (decide (j = self)) as [->|Hne].
    + exists e''. split; [exact He''|].
      assert (ej = es) by congruence. subst ej.
      split; congruence.
    + exists ej. split; [|auto].
      rewrite En, list_lookup_insert_ne by auto. exact Hej.
  - unfold exec, Enemy_update, get_enemy.
    rewrite bind_gets, list_lookup_total_alt, He. simpl.
    split; [exact Hx|]. split; [exact Hy | exact Hen].
Qed.

Lemma nobody_moved_frame g0 depth :
  preserves (nobody_moved g0) (frame depth 0).
Proof.
  unfold frame. intros g Hg. unfold exec. rewrite bind_gets.
  destruct (running g); [|exact Hg].
  revert g Hg.
  change (preserves (nobody_moved g0) (Game_update depth 0)).
  unfold Game_update, Waypoint_update, Home_update.
  apply preserves_bind; [intros g1 H1; exact H1 | intros _].
  apply preserves_bind; [intros g1 H1; exact H1 | intros _].
  apply preserves_bind; [apply nobody_moved_Player_update | intros _].
  apply preserves_bind; [intros g1 H1; exact H1 | intros es].
  apply preserves_for_range. intros j. apply nobody_moved_Enemy_update.
Qed.

(** X18.  A whole frame with a time delta of zero moves nobody: after it
    the player and every enemy of the game are where they were, even when
    an update raised on the way. *)
Theorem frame_zero_moves_nobody (g : Game) (depth : nat) :
  nobody_moved g (step (ev_frame depth 0) g).
Proof.
  apply (nobody_moved_frame g depth g).
  split; [reflexivity|]. split; [reflexivity|].
  intros j e Hj. apply enemy_stays_refl, Hj.
Qed.

(** X19.  A frame, whatever happens in it, neither adds nor removes an
    enemy and changes neither the level, nor the generator's copy of it,
    nor the screen, nor the home: an enemy that hits the player stays in
    the game, and a player that reaches the home does not change the level
    within the frame. *)
Theorem frame_keeps_roster (g : Game) (depth : nat) (dt : R) :
  stable g (step (ev_frame depth dt) g).
Proof. apply keeps_frame. Qed.

(** ** A move that has not arrived *)







(** ** Where the walking and the fencing enemy end up *)

Lemma arrival_decided_true e tx ty dt :
  arrival_decided e tx ty dt true -> arrived e tx ty dt.
Proof. intros [Hexact _]. apply Hexact. reflexivity. Qed.

Lemma arrival_decided_false e tx ty dt :
  arrival_decided e tx ty dt false -> ~ arrived e tx ty dt.
Proof. intros [Hexact _] Hnear. apply Hexact in Hnear. discriminate. Qed.

(** Proves [stands_for f v] for a float literal [f] and a rational [v]. *)
Ltac binary64_exact :=
  split; [reflexivity|];
  unfold binary64_value;
  match goal with
  | |- context [Prim2SF ?f] =>
    let v := eval vm_compute in (Prim2SF f) in change (Prim2SF f) with v
  end;
  cbv iota beta; unfold powerRZ;
  try (rewrite pow_IZR;
       match goal with
       | |- context [IZR (?a ^ ?b)%Z] =>
         let z := eval vm_compute in (a ^ b)%Z in change (a ^ b)%Z with z
       end);
  lra.

(** Where the two answers differ: an enemy of speed 180 at (0, 0) whose
    target is (54, 18), at the squared distance 3240, and the float nearest
    to 0.1 for the time delta.  In exact arithmetic the enemy has arrived;
    in binary64 the product rounds to 3240.0 and it has not. *)
Lemma arrival_rounding_decides :
  let e := mkEnemy 0 0 20 red 180 (RandomWalkEnemy 54 18) in
  let dt := 0x1.999999999999ap-4%float in
  arrived e 54 18 (binary64_value dt) /\
  arrived_binary64 0 0 180 54 18 dt = false /\
  ~ arrival_decided e 54 18 (binary64_value dt) false.
Proof.
  intros e dt.
  assert (Hdt : stands_for dt (3602879701896397 / 36028797018963968)%R)
    by (unfold dt; binary64_exact).
  destruct Hdt as [_ Hdt].
  assert (Hnear : arrived e 54 18 (binary64_value dt)).
  { rewrite Hdt. unfold arrived. simpl. lra. }
  split; [exact Hnear|]. split; [reflexivity|].
  intros [Hexact _]. apply Hexact in Hnear. discriminate.
Qed.

Lemma FencingEnemy_target_fence_corner hm r c g :
  0 <= c <= 3 ->
  FencingEnemy_target hm r c g = (Ok (fence_corner hm r c), g).
Proof.
  intros Hc.
  destruct (FencingEnemy_target_corners hm r g) as (T0 & T1 & T2 & T3).
  assert (Hcases : c = 0 \/ c = 1 \/ c = 2 \/ c = 3) by lia.
  destruct Hcases as [ -> | [ -> | [ -> | -> ] ] ]; assumption.
Qed.

Lemma arrived_threshold e tx ty dt :
  arrived e tx ty dt -> (0 < dt * en_speed e ^ 2)%R.
Proof.
  unfold arrived. intros Hnear.
  pose proof (pow2_ge_0 (tx - en_x e)). pose proof (pow2_ge_0 (ty - en_y e)).
  lra.
Qed.

Lemma not_arrived_apart e tx ty dt :
  (0 < dt * en_speed e ^ 2)%R ->
  ~ arrived e tx ty dt ->
  Enemy_distance e tx ty <> 0%R.
Proof.
  unfold arrived. intros Hpos Hfar Hd.
  pose proof (Enemy_distance_sqr e tx ty) as Hs. rewrite Hd in Hs. lra.
Qed.

(** A move that returns: the enemy [self] becomes [Enemy_moved]. *)
Lemma Enemy_advance_returns self tx ty dt g e :
  enemies g !! self = Some e ->
  Enemy_distance e tx ty <> 0%R ->
  fst (Enemy_advance self (tx - en_x e) (ty - en_y e)
         (Enemy_distance e tx ty) dt g) = Ok tt /\
  enemies (exec (Enemy_advance self (tx - en_x e) (ty - en_y e)
                   (Enemy_distance e tx ty) dt) g)
  = <[self := Enemy_moved e tx ty dt]> (enemies g) /\
  rng (exec (Enemy_advance self (tx - en_x e) (ty - en_y e)
               (Enemy_distance e tx ty) dt) g) = rng g.
Proof.
  intros He Hd. unfold exec.
  rewrite (Enemy_advance_towards _ _ _ _ _ _ He).
  destruct (decide _) as [H0|_]; [contradiction|].
  cbv zeta. cbn [fst snd].
  destruct (Enemy_hits_player _ _); repeat split.
Qed.

Lemma FencingEnemy_update_heads depth self dt g e c dir r :
  enemies g !! self = Some e ->
  en_strategy e = FencingEnemy c dir r ->
  0 <= c <= 3 ->
  ~ arrived e (fst (fence_corner (home g) r c))
      (snd (fence_corner (home g) r c)) dt ->
  FencingEnemy_update (S depth) self dt g
  = Enemy_advance self
      (fst (fence_corner (home g) r c) - en_x e)
      (snd (fence_corner (home g) r c) - en_y e)
      (Enemy_distance e (fst (fence_corner (home g) r c))
         (snd (fence_corner (home g) r c))) dt g.
Proof.
  intros He Hs Hc Hfar. simpl. unfold get_enemy at 1.
  rewrite bind_gets, (list_lookup_total_correct _ _ _ He), Hs.
  rewrite bind_gets,
    (bind_Ok _ _ _ _ _ (FencingEnemy_target_fence_corner (home g) r c g Hc)).
  destruct (decide _) as [Hnear|_]; [contradiction | reflexivity].
Qed.

(** C7.  A fencing enemy of radius [r] whose corner index is [c], of 0..3,
    heads for the home's position moved by (-r, -r), (+r, -r), (+r, +r),
    (-r, +r) for the index 0, 1, 2, 3: that point is the target its update
    computes, and an update that has not arrived moves the enemy towards
    it and keeps the index.  On arrival, when the squared distance to the
    target is below [dt * speed ^ 2], the index becomes [(c + 1) mod 4] or
    [(c - 1) mod 4] as the enemy's direction, which does not change, says,
    and the update runs again in the same frame: if the enemy has not
    arrived at the new corner too, it ends the frame with the new index,
    moved towards the new corner.  The test on arrival is taken where its
    answer in binary64 is its answer in exact arithmetic. *)
Theorem FencingEnemy_patrols_corners
    (g : Game) (depth self : nat) (dt : R) (e : Enemy)
    (c : Z) (dir : bool) (r : Z) :
  enemies g !! self = Some e ->
  en_strategy e = FencingEnemy c dir r ->
  0 <= c <= 3 ->
  let corner := fence_corner (home g) r in
  let c' := (c + (if dir then -1 else 1)) mod 4 in
  let e1 := set_strategy (FencingEnemy c' dir r) e in
  let g1 := set_enemies (<[self := e1]> (enemies g)) g in
  FencingEnemy_target (home g) r c g = (Ok (corner c), g) /\
  0 <= c' <= 3 /\
  (arrival_decided e (fst (corner c)) (snd (corner c)) dt false ->
   Enemy_distance e (fst (corner c)) (snd (corner c)) <> 0%R ->
   raises (FencingEnemy_update (S depth) self dt) g = None /\
   enemies (exec (FencingEnemy_update (S depth) self dt) g)
   = <[self := Enemy_moved e (fst (corner c)) (snd (corner c)) dt]>
       (enemies g) /\
   en_strategy (Enemy_moved e (fst (corner c)) (snd (corner c)) dt)
   = FencingEnemy c dir r) /\
  (arrival_decided e (fst (corner c)) (snd (corner c)) dt true ->
   FencingEnemy_update (S depth) self dt g
   = FencingEnemy_update depth self dt g1) /\
  (arrival_decided e (fst (corner c)) (snd (corner c)) dt true ->
   arrival_decided e1 (fst (corner c')) (snd (corner c')) dt false ->
   raises (FencingEnemy_update (S (S depth)) self dt) g = None /\
   enemies (exec (FencingEnemy_update (S (S depth)) self dt) g)
   = <[self := Enemy_moved e1 (fst (corner c')) (snd (corner c')) dt]>
       (enemies g) /\
   en_strategy (Enemy_moved e1 (fst (corner c')) (snd (corner c')) dt)
   = FencingEnemy c' dir r).
Proof.
  intros He Hs Hc corner c' e1 g1.
  pose proof (lookup_lt_Some _ _ _ He) as Hlt.
  pose proof (FencingEnemy_target_fence_corner (home g) r c g Hc) as Htar.
  assert (Hc' : 0 <= c' <= 3).
  { pose proof (Z.mod_pos_bound (c + (if dir then -1 else 1)) 4 ltac:(lia)).
    unfold c'. lia. }
  assert (Hstep : arrived e (fst (corner c)) (snd (corner c)) dt ->
                  FencingEnemy_update (S depth) self dt g
                  = FencingEnemy_update depth self dt g1).
  { intros Hnear.
    apply (FencingEnemy_update_arrival depth self dt g e c dir r
             (fst (corner c)) (snd (corner c)) He Hs).
    - rewrite Htar. unfold corner. destruct (fence_corner _ _ _); reflexivity.
    - exact Hnear. }
  split; [exact Htar|]. split; [exact Hc'|]. split; [|split].
  - intros Hfar%arrival_decided_false Hd.
    destruct (Enemy_advance_returns self (fst (corner c)) (snd (corner c))
                dt g e He Hd) as (Hok & Hen & _).
    unfold raises, exec in *.
    rewrite (FencingEnemy_update_heads depth self dt g e c dir r
               He Hs Hc Hfar).
    fold corner. rewrite Hok. split; [reflexivity|].
    split; [exact Hen | exact Hs].
  - intros Hnear%arrival_decided_true. exact (Hstep Hnear).
  - intros Hnear%arrival_decided_true Hfar%arrival_decided_false.
    assert (He1 : enemies g1 !! self = Some e1).
    { simpl. apply list_lookup_insert_eq, Hlt. }
    assert (Hd : Enemy_distance e1 (fst (corner c')) (snd (corner c'))
                 <> 0%R).
    { apply (not_arrived_apart e1 _ _ dt); [|exact Hfar].
      apply (arrived_threshold e _ _ dt Hnear). }
    destruct (Enemy_advance_returns self (fst (corner c')) (snd (corner c'))
                dt g1 e1 He1 Hd) as (Hok & Hen & _).
    unfold raises, exec in *.
    assert (Hrun : FencingEnemy_update (S (S depth)) self dt g
                   = FencingEnemy_update (S depth) self dt g1).
    { apply (FencingEnemy_update_arrival (S depth) self dt g e c dir r
               (fst (corner c)) (snd (corner c)) He Hs).
      - rewrite Htar. unfold corner.
        destruct (fence_corner _ _ _); reflexivity.
      - exact Hnear. }
    rewrite Hrun.
    rewrite (FencingEnemy_update_heads depth self dt g1 e1 c' dir r
               He1 eq_refl Hc' Hfar).
    change (fence_corner (home g1) r c') with (corner c').
    rewrite Hok. split; [reflexivity|].
    split; [|reflexivity].
    rewrite Hen. simpl. apply list_insert_insert_eq.
Qed.

Lemma FencingEnemy_patrols_corners_witness :
  let e := mkEnemy 640 190 20 red 150 (FencingEnemy 0 false 60) in
  let g := set_enemies [e]
             (TurtleAdventureGame_init 800 500 1 (fun _ => 0)) in
  enemies (exec (FencingEnemy_update 2 0 (1 / 32)) g)
  = [Enemy_moved (set_strategy (FencingEnemy 1 false 60) e)
       (fst (fence_corner (home g) 60 1))
       (snd (fence_corner (home g) 60 1)) (1 / 32)].
Proof.
  intros e g.
  assert (Hx0 : fst (fence_corner (home g) 60 0) = 640%R).
  { simpl. change (800 - 100) with 700. lra. }
  assert (Hx1 : fst (fence_corner (home g) 60 1) = 760%R).
  { simpl. change (800 - 100) with 700. lra. }
  assert (Hy : snd (fence_corner (home g) 60 0) = 190%R).
  { simpl. change (500 / 2) with 250. lra. }
  assert (Hy1 : snd (fence_corner (home g) 60 1) = 190%R).
  { simpl. change (500 / 2) with 250. lra. }
  destruct (FencingEnemy_patrols_corners g 0 0 (1 / 32) e 0 false 60)
    as (_ & _ & _ & _ & Hturn); try reflexivity; try lia.
  apply Hturn.
  - change ((0 + 1) mod 4) with 1 in *. rewrite Hx0, Hy. split.
    + split; [reflexivity|]. intros _. unfold arrived. simpl. lra.
    + exists 640%float, 190%float, 150%float,
        640%float, 190%float, 0x1p-5%float.
      unfold e. simpl (en_x _). simpl (en_y _). simpl (en_speed _).
      split; [binary64_exact|]. split; [binary64_exact|].
      split; [binary64_exact|]. split; [binary64_exact|].
      split; [binary64_exact|]. split; [binary64_exact|].
      reflexivity.
  - change ((0 + 1) mod 4) with 1 in *. rewrite Hx1, Hy1. split.
    + split; [|discriminate]. unfold arrived. simpl. lra.
    + exists 640%float, 190%float, 150%float,
        760%float, 190%float, 0x1p-5%float.
      unfold e. simpl (en_x _). simpl (en_y _). simpl (en_speed _).
      split; [binary64_exact|]. split; [binary64_exact|].
      split; [binary64_exact|]. split; [binary64_exact|].
      split; [binary64_exact|]. split; [binary64_exact|].
      reflexivity.
Defined.

Lemma RandomWalkEnemy_update_heads depth self dt g e tarx tary :
  enemies g !! self = Some e ->
  en_strategy e = RandomWalkEnemy tarx tary ->
  ~ arrived e tarx tary dt ->
  RandomWalkEnemy_update (S depth) self dt g
  = Enemy_advance self (tarx - en_x e) (tary - en_y e)
      (Enemy_distance e tarx tary) dt g.
Proof.
  intros He Hs Hfar. simpl. unfold get_enemy at 1.
  rewrite bind_gets, (list_lookup_total_correct _ _ _ He), Hs.
  destruct (decide _) as [Hnear|_]; [contradiction | reflexivity].
Qed.

Lemma RandomWalkEnemy_update_retargets depth self dt g e tarx tary :
  enemies g !! self = Some e ->
  en_strategy e = RandomWalkEnemy tarx tary ->
  arrived e tarx tary dt ->
  0 <= screen_width g ->
  0 <= screen_height g ->
  RandomWalkEnemy_update (S depth) self dt g
  = RandomWalkEnemy_update depth self dt
      (set_enemies
         (<[self := set_strategy
                      (RandomWalkEnemy
                         (IZR (rng g 0%nat mod (screen_width g + 1)))
                         (IZR (rng g 1%nat mod (screen_height g + 1)))) e]>
            (enemies g))
         (set_rng (fun n => rng g (S (S n))) g)).
Proof.
  intros He Hs Harr HW HH.
  simpl. unfold get_enemy at 1.
  rewrite bind_gets, (list_lookup_total_correct _ _ _ He), Hs.
  destruct (decide _) as [_|Hfar]; [|contradiction].
  rewrite bind_gets.
  rewrite (bind_Ok _ _ _ _ _ (randint_zero_eq _ g HW)).
  rewrite bind_gets.
  rewrite (bind_Ok _ _ _ _ _
             (randint_zero_eq _ (set_rng (fun n => rng g (S n)) g) HH)).
  reflexivity.
Qed.

(** X7.  A random walk enemy that has arrived at its target (squared
    distance below [dt * speed ^ 2]), on a screen without a negative side,
    draws a new target, first [x] in [0..screen_width], then [y] in
    [0..screen_height], both ends included, and updates again in the same
    frame: if it has not arrived at the new target too, it ends the frame
    with the new target, moved towards it, with exactly those two random
    draws consumed and no other enemy changed.  The test on arrival is
    taken where its answer in binary64 is its answer in exact
    arithmetic. *)
Theorem RandomWalkEnemy_update_arrival
    (g : Game) (depth self : nat) (e : Enemy) (tarx tary dt : R) :
  enemies g !! self = Some e ->
  en_strategy e = RandomWalkEnemy tarx tary ->
  arrival_decided e tarx tary dt true ->
  0 <= screen_width g ->
  0 <= screen_height g ->
  let tx := rng g 0%nat mod (screen_width g + 1) in
  let ty := rng g 1%nat mod (screen_height g + 1) in
  let e1 := set_strategy (RandomWalkEnemy (IZR tx) (IZR ty)) e in
  let g' := exec (RandomWalkEnemy_update (S (S depth)) self dt) g in
  0 <= tx <= screen_width g /\
  0 <= ty <= screen_height g /\
  (arrival_decided e1 (IZR tx) (IZR ty) dt false ->
   raises (RandomWalkEnemy_update (S (S depth)) self dt) g = None /\
   enemies g' = <[self := Enemy_moved e1 (IZR tx) (IZR ty) dt]> (enemies g) /\
   en_strategy (Enemy_moved e1 (IZR tx) (IZR ty) dt)
   = RandomWalkEnemy (IZR tx) (IZR ty) /\
   rng g' = (fun n => rng g (S (S n)))).
Proof.
  intros He Hs Harr%arrival_decided_true HW HH tx ty e1 g'.
  pose proof (lookup_lt_Some _ _ _ He) as Hlt.
  pose proof (Z.mod_pos_bound (rng g 0%nat) (screen_width g + 1)
                ltac:(lia)).
  pose proof (Z.mod_pos_bound (rng g 1%nat) (screen_height g + 1)
                ltac:(lia)).
  split; [unfold tx; lia|]. split; [unfold ty; lia|].
  intros Hfar%arrival_decided_false.
  set (g1 := set_enemies (<[self := e1]> (enemies g))
               (set_rng (fun n => rng g (S (S n))) g)).
  assert (He1 : enemies g1 !! self = Some e1).
  { simpl. apply list_lookup_insert_eq, Hlt. }
  assert (Hd : Enemy_distance e1 (IZR tx) (IZR ty) <> 0%R).
  { apply (not_arrived_apart e1 _ _ dt); [|exact Hfar].
    apply (arrived_threshold e _ _ dt Harr). }
  destruct (Enemy_advance_returns self (IZR tx) (IZR ty) dt g1 e1 He1 Hd)
    as (Hok & Hen & Hrng).
  unfold g', raises, exec in *.
  rewrite (RandomWalkEnemy_update_retargets (S depth) self dt g e tarx tary
             He Hs Harr HW HH).
  fold tx ty e1 g1.
  rewrite (RandomWalkEnemy_update_heads depth self dt g1 e1 (IZR tx) (IZR ty)
             He1 eq_refl Hfar).
  rewrite Hok, Hen, Hrng. split; [reflexivity|].
  split; [simpl; apply list_insert_insert_eq|].
  split; reflexivity.
Qed.

Lemma RandomWalkEnemy_update_arrival_witness :
  let e := mkEnemy 7 7 20 red 150 (RandomWalkEnemy 7 7) in
  let g := set_enemies [e]
             (TurtleAdventureGame_init 800 500 1 (fun n => Z.of_nat n + 900)) in
  enemies (exec (RandomWalkEnemy_update 2 0 1) g)
  = [Enemy_moved (set_strategy (RandomWalkEnemy 99 400) e) 99 400 1].
Proof.
  intros e g.
  destruct (RandomWalkEnemy_update_arrival g 0 0 e 7 7 1)
    as (_ & _ & Hrun); try reflexivity; try (simpl; lia).
  - split.
    + split; [reflexivity|]. intros _. unfold arrived. simpl. lra.
    + exists 7%float, 7%float, 150%float, 7%float, 7%float, 1%float.
      unfold e. simpl (en_x _). simpl (en_y _). simpl (en_speed _).
      split; [binary64_exact|]. split; [binary64_exact|].
      split; [binary64_exact|]. split; [binary64_exact|].
      split; [binary64_exact|]. split; [binary64_exact|].
      reflexivity.
  - destruct Hrun as (_ & Hen & _); [|exact Hen].
    change (rng g 0%nat mod (screen_width g + 1)) with 99.
    change (rng g 1%nat mod (screen_height g + 1)) with 400.
    split.
    + split; [|discriminate]. unfold arrived. simpl. lra.
    + exists 7%float, 7%float, 150%float, 99%float, 400%float, 1%float.
      unfold e. simpl (en_x _). simpl (en_y _). simpl (en_speed _).
      split; [binary64_exact|]. split; [binary64_exact|].
      split; [binary64_exact|]. split; [binary64_exact|].
      split; [binary64_exact|]. split; [binary64_exact|].
      reflexivity.
Defined.
